(** * The chart series transform of redash: [updateData.js]

    A shallow embedding of
    [client/app/visualizations/chart/plotly/updateData.js] and the
    properties of its passes: percent values, the unified x axis,
    stacking and the text labels.

    Conventions of the embedding.
    - A JavaScript number is a [num]: an exact rational, or one of
      [Infinity], [-Infinity], [NaN].  Rounding of doubles is abstracted:
      finite arithmetic is exact, so a finite result is never rounded
      and never overflows to an infinity; the two zeros are identified;
      the non-finite values behave as in the language.  A property that
      depends on the value of a finite sum is stated for sums within the
      range of doubles ([Num.fits]).
    - A JavaScript value that may sit in an output array or in a raw row
      is a [value]: [undefined], [null], a number or a string.
    - A [Map] is an association list in insertion order ([map_get],
      [map_set]); a [Set] is a duplicate-free list in insertion order
      ([set_add]); a plain object used as a dictionary is a [gmap].
    - Mutation in place is state passing: every pass takes the list of
      visible series and returns the list after the pass.
    - The helpers imported from other modules ([createNumberFormatter],
      [formatSimpleTemplate], [normalizeValue]), the number-to-string
      conversion of the language and the comparison [compareAscending]
      that lodash's [sortBy] sorts by are the fields of the class
      [Imports]; lodash itself is not part of the sources, and [sortBy]
      is modelled from its documentation as a stable sort.
    - A plain object read with [object[key]] also yields the properties
      it inherits from [Object.prototype] ([object_prototype_names]). *)

From Stdlib Require Import QArith Qcanon Qcabs.
From stdpp Require Import gmap strings list fin_maps numbers sorting pretty.

#[local] Close Scope Qc_scope.
#[local] Close Scope Q_scope.

(** ** Numbers *)

Inductive num : Type :=
| Fin (q : Qc)
| PInf
| NInf
| NaN.

#[global] Instance num_eq_dec : EqDecision num.
Proof. solve_decision. Defined.

Definition q100 : Qc := Q2Qc (Qmake 100 1).

Module Num.
Local Open Scope Qc_scope.

Definition zero : num := Fin 0.
Definition hundred : num := Fin q100.

Definition is_finite (a : num) : bool :=
  match a with Fin _ => true | _ => false end.


(** [a < b] on numbers; false when either is [NaN]. *)
Definition ltb (a b : num) : bool :=
  match a, b with
  | NaN, _ | _, NaN => false
  | Fin p, Fin q => bool_decide (p < q)
  | NInf, (Fin _ | PInf) => true
  | Fin _, PInf => true
  | _, _ => false
  end.




(** [ToBoolean] on a number: [0] and [NaN] are falsy. *)
Definition truthy (a : num) : bool :=
  match a with
  | Fin q => bool_decide (q ≠ 0)
  | PInf | NInf => true
  | NaN => false
  end.

(** [Math.abs] *)
Definition abs (a : num) : num :=
  match a with
  | Fin q => Fin (Qcabs q)
  | PInf | NInf => PInf
  | NaN => NaN
  end.

(** unary minus *)
Definition neg (a : num) : num :=
  match a with
  | Fin q => Fin (- q)
  | PInf => NInf
  | NInf => PInf
  | NaN => NaN
  end.

Definition add (a b : num) : num :=
  match a, b with
  | NaN, _ | _, NaN => NaN
  | Fin p, Fin q => Fin (p + q)
  | PInf, NInf | NInf, PInf => NaN
  | PInf, _ | _, PInf => PInf
  | NInf, _ | _, NInf => NInf
  end.

(** The infinity with the sign of [q]; [NaN] for [q = 0]. *)
Definition inf_of_sign (q : Qc) : num :=
  if bool_decide (q = 0) then NaN
  else if bool_decide (0 < q) then PInf else NInf.

Definition mul (a b : num) : num :=
  match a, b with
  | NaN, _ | _, NaN => NaN
  | Fin p, Fin q => Fin (p * q)
  | Fin p, PInf | PInf, Fin p => inf_of_sign p
  | Fin p, NInf | NInf, Fin p => inf_of_sign (- p)
  | PInf, PInf | NInf, NInf => PInf
  | PInf, NInf | NInf, PInf => NInf
  end.

(** Division.  A zero divisor is the positive zero: the only divisor of
    the transform is a sum of absolute values started at [0]. *)
Definition div (a b : num) : num :=
  match a, b with
  | NaN, _ | _, NaN => NaN
  | Fin p, Fin q =>
      if bool_decide (q = 0) then inf_of_sign p else Fin (p / q)
  | Fin _, (PInf | NInf) => Fin 0
  | PInf, Fin q => if bool_decide (q < 0) then NInf else PInf
  | NInf, Fin q => if bool_decide (q < 0) then PInf else NInf
  | (PInf | NInf), (PInf | NInf) => NaN
  end.

End Num.

(** ** Values *)

Inductive value : Type :=
| VUndef
| VNull
| VNum (n : num)
| VStr (s : string).

#[global] Instance value_eq_dec : EqDecision value.
Proof. solve_decision. Defined.

(** An optional numeric field read as a value: absent is [undefined]. *)
Definition of_opt (o : option num) : value :=
  match o with Some n => VNum n | None => VUndef end.

(** [ToNumber] on the values of the model that are not strings. *)
Definition to_number (v : value) : num :=
  match v with
  | VNum n => n
  | VNull => Num.zero
  | VUndef | VStr _ => NaN
  end.

(** [Math.abs(item.yPercent)]: an absent field is [undefined], whose
    absolute value is [NaN]. *)
Definition abs_opt (o : option num) : num :=
  match o with Some n => Num.abs n | None => NaN end.

(** ** Insertion-ordered [Map] and [Set] *)

Section Containers.
Context {K V : Type} `{EqDecision K}.

Fixpoint map_get (k : K) (m : list (K * V)) : option V :=
  match m with
  | [] => None
  | (k', v) :: m' => if decide (k = k') then Some v else map_get k m'
  end.

(** [Map.prototype.set]: an existing key keeps its place. *)
Fixpoint map_set (k : K) (v : V) (m : list (K * V)) : list (K * V) :=
  match m with
  | [] => [(k, v)]
  | (k', v') :: m' =>
      if decide (k = k') then (k', v) :: m' else (k', v') :: map_set k v m'
  end.

(** [Set.prototype.add] *)
Definition set_add (k : K) (s : list K) : list K :=
  if decide (k ∈ s) then s else s ++ [k].

End Containers.

(** ** The data model *)

(** The raw record a point was built from: [row.x], [row.y] and the
    unprocessed fields [row.$raw]. *)
Module Row.
Record t : Type := mk {
  x : value;
  y : value;
  raw : gmap string value
}.
End Row.

(** [Point]: one item of [series.sourceData].  The optional fields are
    [undefined] when absent. *)
Module Point.
Record t : Type := mk {
  x : value;
  y : num;
  yError : option num;
  size : option num;
  yPercent : option num;
  row : Row.t
}.

Definition set_yPercent (v : option num) (p : t) : t :=
  mk (x p) (y p) (yError p) (size p) v (row p).
End Point.

Module Series.
Record t : Type := mk {
  name : string;
  visible : bool;
  yaxis : string;
  sourceData : list (value * Point.t);
  x : list value;
  y : list value;
  error_y_array : list value;
  text : list value;
  hover : list value;
  labels : list value
}.

Definition set_sourceData (d : list (value * Point.t)) (s : t) : t :=
  mk (name s) (visible s) (yaxis s) d (x s) (y s) (error_y_array s)
     (text s) (hover s) (labels s).
Definition set_x (v : list value) (s : t) : t :=
  mk (name s) (visible s) (yaxis s) (sourceData s) v (y s)
     (error_y_array s) (text s) (hover s) (labels s).
Definition set_y (v : list value) (s : t) : t :=
  mk (name s) (visible s) (yaxis s) (sourceData s) (x s) v
     (error_y_array s) (text s) (hover s) (labels s).
Definition set_error_y_array (v : list value) (s : t) : t :=
  mk (name s) (visible s) (yaxis s) (sourceData s) (x s) (y s) v
     (text s) (hover s) (labels s).
Definition set_text (v : list value) (s : t) : t :=
  mk (name s) (visible s) (yaxis s) (sourceData s) (x s) (y s)
     (error_y_array s) v (hover s) (labels s).
Definition set_hover (v : list value) (s : t) : t :=
  mk (name s) (visible s) (yaxis s) (sourceData s) (x s) (y s)
     (error_y_array s) (text s) v (labels s).
End Series.

(** One entry of [options.seriesOptions]; its [type] may be missing. *)
Module SeriesOptions.
Record t : Type := mk { type : option string }.
End SeriesOptions.

Module Options.
Record t : Type := mk {
  globalSeriesType : string;
  seriesOptions : gmap string SeriesOptions.t;
  series_percentValues : bool;
  series_stacking : bool;
  sortX : bool;
  xAxis_type : option string;
  yAxis0_type : option string;
  yAxis1_type : option string;
  numberFormat : string;
  percentFormat : string;
  dateTimeFormat : string;
  textFormat : string
}.
End Options.

#[global] Instance Row_eq_dec : EqDecision Row.t.
Proof. solve_decision. Defined.
#[global] Instance Point_eq_dec : EqDecision Point.t.
Proof. solve_decision. Defined.
#[global] Instance Series_eq_dec : EqDecision Series.t.
Proof. solve_decision. Defined.

(** ** What the module imports *)

Class Imports : Type := {
  (** [createNumberFormatter(format)] of [@/lib/value-format] *)
  createNumberFormatter : string → num → string;
  (** [formatSimpleTemplate(str, data)] of [@/lib/value-format] *)
  formatSimpleTemplate : string → gmap string value → string;
  (** [normalizeValue(value, axisType, dateTimeFormat)] of [./utils] *)
  normalizeValue : value → option string → string → value;
  (** [ToString] of the language on a number *)
  numToString : num → string;
  (** [compareAscending(value, other)], the comparison of lodash that
      [sortBy(_, identity)] sorts by: [Lt] for -1, [Eq] for 0, [Gt]
      for 1 *)
  compareAscending : value → value → comparison
}.

Section Transform.
Context {imports : Imports}.

(** [ToString], as applied by template literals and by [+] on strings *)
Definition to_string (v : value) : string :=
  match v with
  | VUndef => "undefined"
  | VNull => "null"
  | VNum n => numToString n
  | VStr s => s
  end.

(** The operator [+] *)
Definition js_add (a b : value) : value :=
  match a, b with
  | VStr _, _ | _, VStr _ => VStr (to_string a +:+ to_string b)
  | _, _ => VNum (Num.add (to_number a) (to_number b))
  end.

(** [object[key]]: a missing property reads as [undefined]. *)
Definition prop (o : gmap string value) (k : string) : value :=
  default VUndef (o !! k).

(** [array[i]]: an index out of range reads as [undefined]. *)
Definition at_index (l : list value) (i : nat) : value :=
  default VUndef (l !! i).

(** *** Text labels *)

Definition defaultFormatSeriesText (item : gmap string value) : value :=
  let result := prop item "@@y" in
  let result :=
    if decide (prop item "@@yError" ≠ VUndef)
    then VStr (to_string result +:+ " ± " +:+ to_string (prop item "@@yError"))
    else result in
  let result :=
    if decide (prop item "@@yPercent" ≠ VUndef)
    then VStr (to_string (prop item "@@yPercent") +:+ " (" +:+ to_string result +:+ ")")
    else result in
  let result :=
    if decide (prop item "@@size" ≠ VUndef)
    then VStr (to_string result +:+ ": " +:+ to_string (prop item "@@size"))
    else result in
  result.

Definition defaultFormatSeriesTextForPie (item : gmap string value) : value :=
  VStr (to_string (prop item "@@yPercent") +:+ " (" +:+
        to_string (prop item "@@y") +:+ ")").

Definition createTextFormatter (options : Options.t)
    : gmap string value → value :=
  if decide (Options.textFormat options = "")
  then if decide (Options.globalSeriesType options = "pie")
       then defaultFormatSeriesTextForPie
       else defaultFormatSeriesText
  else λ item, VStr (formatSimpleTemplate (Options.textFormat options) item).

Definition formatValue (v : value) (axis : string) (options : Options.t)
    : value :=
  let axisType :=
    if decide (axis = "x") then Options.xAxis_type options
    else if decide (axis = "y") then Options.yAxis0_type options
    else if decide (axis = "y2") then Options.yAxis1_type options
    else None in
  normalizeValue v axisType (Options.dateTimeFormat options).

(** The names a plain object inherits from [Object.prototype]: reading
    one of them on an object without such a field of its own gives a
    function (the prototype itself for [__proto__]), which is truthy and
    has no [type]. *)
Definition object_prototype_names : list string :=
  ["constructor"; "toString"; "toLocaleString"; "valueOf";
   "hasOwnProperty"; "isPrototypeOf"; "propertyIsEnumerable";
   "__proto__"; "__defineGetter__"; "__defineSetter__";
   "__lookupGetter__"; "__lookupSetter__"].

(** [options.seriesOptions[series.name] || { type: options.globalSeriesType }],
    projected on [type].  [seriesOptions] is a plain object: an entry of
    its own wins; a name inherited from [Object.prototype] gives an
    object without [type]; only for any other name the global type is
    taken. *)
Definition seriesType (options : Options.t) (series : Series.t)
    : option string :=
  match Options.seriesOptions options !! Series.name series with
  | Some so => SeriesOptions.type so
  | None =>
      if decide (Series.name series ∈ object_prototype_names) then None
      else Some (Options.globalSeriesType options)
  end.

(** [extend(text, $raw)]: the raw fields are copied over the tokens. *)
Definition extend (text raw : gmap string value) : gmap string value :=
  raw ∪ text.

Definition opt_token (k : string) (o : option string)
    (text : gmap string value) : gmap string value :=
  match o with Some s => <[k := VStr s]> text | None => text end.

(** The tokens of a point that was found: the assignments to [text]
    under [if (item)], before the raw fields are copied in. *)
Definition point_tokens (options : Options.t) (series : Series.t)
    (item : Point.t) : gmap string value :=
  let formatNumber := createNumberFormatter (Options.numberFormat options) in
  let formatPercent := createNumberFormatter (Options.percentFormat options) in
  let text : gmap string value := {[ "@@name" := VStr (Series.name series) ]} in
  let yValueIsAny :=
    bool_decide (seriesType options series = Some "bubble"
                 ∨ seriesType options series = Some "scatter") in
  let text := <["@@x" := formatValue (Row.x (Point.row item)) "x" options]> text in
  let text :=
    <["@@y" := if yValueIsAny
               then formatValue (Row.y (Point.row item)) (Series.yaxis series) options
               else VStr (formatNumber (Point.y item))]> text in
  let text := opt_token "@@yError" (formatNumber <$> Point.yError item) text in
  let text := opt_token "@@size" (formatNumber <$> Point.size item) text in
  if Options.series_percentValues options
     || bool_decide (Options.globalSeriesType options = "pie")
  then <["@@yPercent" := VStr (formatPercent (abs_opt (Point.yPercent item)))]> text
  else text.

(** The token bag built for one x of one series (the body of
    [xValues.forEach] up to the call of the formatter). *)
Definition tokens (options : Options.t) (series : Series.t) (x : value)
    : gmap string value :=
  match map_get x (Series.sourceData series) with
  | Some item => extend (point_tokens options series item)
                        (Row.raw (Point.row item))
  | None => {[ "@@name" := VStr (Series.name series) ]}
  end.

Definition updateSeriesText (seriesList : list Series.t) (options : Options.t)
    : list Series.t :=
  let formatText := createTextFormatter options in
  (λ series,
     let xValues :=
       if decide (Options.globalSeriesType options = "pie")
       then Series.labels series else Series.x series in
     Series.set_hover []
       (Series.set_text
          ((λ x, formatText (tokens options series x)) <$> xValues) series))
  <$> seriesList.

(** *** Percent values *)

(** [map.get(k) || 0] *)
Definition or_zero (o : option num) : num :=
  match o with
  | Some n => if Num.truthy n then n else Num.zero
  | None => Num.zero
  end.

(** The value of [map.get(k)] used as an operand: a missing key reads
    as [undefined], that is [NaN]. *)
Definition get_num (o : option num) : num :=
  match o with Some n => n | None => NaN end.

(** One step of the first loop of [updatePercentValues]. *)
Definition add_point (sums : list (value * num)) (item : Point.t)
    : list (value * num) :=
  let sum := or_zero (map_get (Point.x item) sums) in
  map_set (Point.x item) (Num.add sum (Num.abs (Point.y item))) sums.

(** [Map.prototype.forEach] visits the items in insertion order. *)
Definition items (series : Series.t) : list Point.t :=
  snd <$> Series.sourceData series.

Definition sumOfCorrespondingPoints (seriesList : list Series.t)
    : list (value * num) :=
  foldl (λ sums series, foldl add_point sums (items series)) [] seriesList.

Definition percent_of (sums : list (value * num)) (item : Point.t) : num :=
  let sum := get_num (map_get (Point.x item) sums) in
  Num.mul (Num.div (Point.y item) sum) Num.hundred.

Definition percent_item (sums : list (value * num)) (item : Point.t)
    : Point.t :=
  Point.set_yPercent (Some (percent_of sums item)) item.

(** The second loop of [updatePercentValues] on one series. *)
Definition percent_series (sums : list (value * num)) (series : Series.t)
    : Series.t :=
  let data := prod_map id (percent_item sums) <$> Series.sourceData series in
  let yValues := (λ kv, of_opt (Point.yPercent kv.2)) <$> data in
  Series.set_y yValues (Series.set_sourceData data series).

Definition updatePercentValues (seriesList : list Series.t)
    (options : Options.t) : list Series.t :=
  if Options.series_percentValues options
  then percent_series (sumOfCorrespondingPoints seriesList) <$> seriesList
  else seriesList.

(** *** The unified x axis *)

(** One step of a stable insertion sort: [x], which came before the
    entries of [l], moves to the right past the entries it is greater
    than, and stops at the first one it is not greater than. *)
Fixpoint insert_by (x : value) (l : list value) : list value :=
  match l with
  | [] => [x]
  | e :: l' =>
      match compareAscending x e with
      | Gt => e :: insert_by x l'
      | _ => x :: e :: l'
      end
  end.

(** lodash's [sortBy(result, identity)].  lodash is not under the
    sources; from its documentation, it is a stable sort in ascending
    order by [compareAscending], entries that compare equal keeping
    their order.  Modelled as the stable insertion sort: where the
    comparison is a total preorder on the entries there is one stably
    sorted list, and a list whose neighbours are all in order is
    returned as it is. *)
Definition sortBy (l : list value) : list value :=
  foldr insert_by [] l.

Definition getUnifiedXAxisValues (seriesList : list Series.t) (sorted : bool)
    : list value :=
  let set :=
    foldl (λ set series,
             foldl (λ set item, set_add (Point.x item) set) set (items series))
          [] seriesList in
  let result := set in
  if sorted then sortBy result else result.

(** The body of [each(unifiedX, ...)] for one x: the entries pushed on
    [series.y] and on [series.error_y.array]. *)
Definition unified_y (options : Options.t) (defaultY : value)
    (series : Series.t) (x : value) : value :=
  match map_get x (Series.sourceData series) with
  | Some item =>
      if Options.series_percentValues options
      then of_opt (Point.yPercent item) else VNum (Point.y item)
  | None => defaultY
  end.

Definition unified_error (series : Series.t) (x : value) : value :=
  match map_get x (Series.sourceData series) with
  | Some item => of_opt (Point.yError item)
  | None => VNull
  end.

Definition unify_series (options : Options.t) (defaultY : value)
    (unifiedX : list value) (series : Series.t) : Series.t :=
  Series.set_error_y_array (unified_error series <$> unifiedX)
    (Series.set_y (unified_y options defaultY series <$> unifiedX)
       (Series.set_x unifiedX series)).

(** [defaultY] is [None] when the caller passes no third argument. *)
Definition updateUnifiedXAxisValues (seriesList : list Series.t)
    (options : Options.t) (defaultY : option value) : list Series.t :=
  let unifiedX := getUnifiedXAxisValues seriesList (Options.sortX options) in
  let defaultY := match defaultY with None => VNull | Some v => v end in
  unify_series options defaultY unifiedX <$> seriesList.

(** *** Stacking *)

(** The loop of [updateLineAreaData] that accumulates the y values;
    [prevSeries] is the series just written, [None] at the start. *)
Fixpoint accumulate (prevSeries : option Series.t) (seriesList : list Series.t)
    : list Series.t :=
  match seriesList with
  | [] => []
  | series :: rest =>
      let series :=
        match prevSeries with
        | Some prev =>
            Series.set_y
              (imap (λ i y, js_add (at_index (Series.y prev) i) y)
                    (Series.y series))
              series
        | None => series
        end in
      series :: accumulate (Some series) rest
  end.

(** *** The pipelines *)

Definition useUnifiedXAxis (options : Options.t) : bool :=
  Options.sortX options
  && bool_decide (Options.xAxis_type options = Some "category")
  && bool_decide (Options.globalSeriesType options ≠ "box").

Definition updatePieData (seriesList : list Series.t) (options : Options.t)
    : list Series.t :=
  updateSeriesText seriesList options.

Definition updateLineAreaData (seriesList : list Series.t)
    (options : Options.t) : list Series.t :=
  let seriesList := updatePercentValues seriesList options in
  let seriesList :=
    if Options.series_stacking options
    then accumulate None
           (updateUnifiedXAxisValues seriesList options (Some (VNum Num.zero)))
    else if useUnifiedXAxis options
         then updateUnifiedXAxisValues seriesList options None
         else seriesList in
  updateSeriesText seriesList options.

Definition updateDefaultData (seriesList : list Series.t)
    (options : Options.t) : list Series.t :=
  let seriesList := updatePercentValues seriesList options in
  let seriesList :=
    if negb (Options.series_stacking options) && useUnifiedXAxis options
    then updateUnifiedXAxisValues seriesList options None
    else seriesList in
  updateSeriesText seriesList options.

(** The visible series are objects of [seriesList] itself: what the
    passes did to them shows in the list that is returned.  [write_back]
    puts the updated visible series at their places. *)
Fixpoint write_back (seriesList visible : list Series.t) : list Series.t :=
  match seriesList with
  | [] => []
  | s :: rest =>
      if Series.visible s
      then match visible with
           | v :: visible' => v :: write_back rest visible'
           | [] => s :: write_back rest []
           end
      else s :: write_back rest visible
  end.

Definition visibleSeries (seriesList : list Series.t) : list Series.t :=
  filter (λ s, Series.visible s = true) seriesList.

Definition updateVisible (visibleSeriesList : list Series.t)
    (options : Options.t) : list Series.t :=
  if bool_decide (0 < length visibleSeriesList)%nat
  then
    let type := Options.globalSeriesType options in
    if decide (type = "pie") then updatePieData visibleSeriesList options
    else if decide (type = "line" ∨ type = "area")
    then updateLineAreaData visibleSeriesList options
    else if decide (type = "heatmap") then visibleSeriesList
    else updateDefaultData visibleSeriesList options
  else visibleSeriesList.

Definition updateData (seriesList : list Series.t) (options : Options.t)
    : list Series.t :=
  let visibleSeriesList := visibleSeries seriesList in
  write_back seriesList (updateVisible visibleSeriesList options).

(** *** Reference notions the properties are stated with *)

(** The keys of a series' [sourceData], in insertion order. *)
Definition keys (series : Series.t) : list value :=
  fst <$> Series.sourceData series.

(** Every point sits under its own x, as the loader builds them. *)
Definition keyed_by_x (series : Series.t) : Prop :=
  Forall (λ kv : value * Point.t, kv.1 = Point.x kv.2)
         (Series.sourceData series).

(** The union of a sequence in first-seen order: every element is kept
    at its first occurrence. *)
Fixpoint first_seen (l : list value) : list value :=
  match l with
  | [] => []
  | a :: l' => a :: filter (λ b, b ≠ a) (first_seen l')
  end.

(** The fill value the callers of [updateUnifiedXAxisValues] pass. *)
Definition fillY (options : Options.t) : option value :=
  if Options.series_stacking options then Some (VNum Num.zero) else None.

(** The chart families of the dispatcher. *)
Definition is_pie (options : Options.t) : Prop :=
  Options.globalSeriesType options = "pie".
Definition is_line_area (options : Options.t) : Prop :=
  Options.globalSeriesType options = "line"
  ∨ Options.globalSeriesType options = "area".
Definition is_heatmap (options : Options.t) : Prop :=
  Options.globalSeriesType options = "heatmap".

(** Whether the pipeline of the family unifies the x axis: always when
    stacking for line and area, and for a sorted category axis
    otherwise (never when stacking for the other families). *)
Definition unifies (options : Options.t) : bool :=
  if decide (is_line_area options)
  then Options.series_stacking options || useUnifiedXAxis options
  else negb (Options.series_stacking options) && useUnifiedXAxis options.

(** The configurations under which the x axis is unified. *)
Definition unification_runs (options : Options.t) : Prop :=
  ¬ is_pie options ∧ ¬ is_heatmap options ∧ unifies options = true.

(** Percent mode of the transform: [series.percentValues] on a family
    that runs [updatePercentValues]. *)
Definition percent_mode (options : Options.t) : Prop :=
  Options.series_percentValues options = true
  ∧ ¬ is_pie options ∧ ¬ is_heatmap options.

(** The points at [x]: the items with that x of all the series. *)
Definition points_at (x : value) (seriesList : list Series.t)
    : list Point.t :=
  filter (λ p, Point.x p = x) (seriesList ≫= items).

Definition sum_of (l : list num) : num := foldl Num.add Num.zero l.

(** Sum of [|y|] over a list of points. *)
Definition abs_sum (ps : list Point.t) : num :=
  sum_of ((λ p, Num.abs (Point.y p)) <$> ps).



End Transform.

(** ** A small instance of the imports, to run the transform *)

Module Demo.

(** Numbers are shown as [n] or [n/d]. *)
Definition show (a : num) : string :=
  match a with
  | Fin q =>
      if decide (Qden q = 1%positive) then pretty (Qnum q)
      else pretty (Qnum q) +:+ "/" +:+ pretty (Zpos (Qden q))
  | PInf => "Infinity"
  | NInf => "-Infinity"
  | NaN => "NaN"
  end.

(** [value > other] and [value < other] of the language, for strings
    that are not numerals: two strings compare by code units, anything
    else as numbers, [null] being 0 and [undefined] and a string
    [NaN]. *)
Definition js_lt (a b : value) : bool :=
  match a, b with
  | VStr s, VStr t => String.ltb s t
  | _, _ => Num.ltb (to_number a) (to_number b)
  end.

Definition is_reflexive (v : value) : bool :=
  negb (bool_decide (v = VNum NaN)).

(** [compareAscending] of lodash on values that are not symbols;
    [value !== other] fails for a value and itself, [NaN] apart. *)
Definition compare (value other : value) : comparison :=
  if bool_decide (value = other) && is_reflexive value then Eq
  else
    let valIsDefined := negb (bool_decide (value = VUndef)) in
    let valIsNull := bool_decide (value = VNull) in
    let valIsReflexive := is_reflexive value in
    let othIsDefined := negb (bool_decide (other = VUndef)) in
    let othIsNull := bool_decide (other = VNull) in
    let othIsReflexive := is_reflexive other in
    if (negb othIsNull && js_lt other value)
       || (valIsNull && othIsDefined && othIsReflexive)
       || (negb valIsDefined && othIsReflexive)
       || negb valIsReflexive
    then Gt
    else if (negb valIsNull && js_lt value other)
            || (othIsNull && valIsDefined && valIsReflexive)
            || (negb othIsDefined && valIsReflexive)
            || negb othIsReflexive
    then Lt
    else Eq.

(** The formatter appends its pattern to the number shown; templates
    are returned as they are; values are not normalized. *)
#[export] Instance imports : Imports := {|
  createNumberFormatter fmt a := show a +:+ fmt;
  formatSimpleTemplate str data := str;
  normalizeValue v _ _ := v;
  numToString := show;
  compareAscending := compare
|}.

Definition int (z : Z) : num := Fin (Q2Qc (inject_Z z)).

(** A point as the loader builds it from a row [(x, y)]. *)
Definition point (x : string) (y : num) : value * Point.t :=
  (VStr x,
   Point.mk (VStr x) y None None None (Row.mk (VStr x) (VNum y) ∅)).

(** A series whose arrays list the rows [pts] and whose [sourceData]
    holds the points [data]. *)
Definition series_of (name : string) (visible : bool)
    (pts data : list (string * num)) : Series.t :=
  Series.mk name visible "y"
    ((λ p, point p.1 p.2) <$> data)
    ((λ p, VStr p.1) <$> pts)
    ((λ p, VNum p.2) <$> pts)
    ((λ _, VUndef) <$> pts)
    [] []
    ((λ p, VStr p.1) <$> pts).

Definition series (name : string) (visible : bool)
    (pts : list (string * num)) : Series.t :=
  series_of name visible pts pts.

Definition options (type : string) (percentValues stacking sortX : bool)
    : Options.t :=
  Options.mk type ∅ percentValues stacking sortX (Some "category")
             None None "" "%" "" "".

End Demo.
(** ** Frames: the fields a pass overwrites *)

(** A mask flags the fields of a series that are to be forgotten: the
    output arrays and the [yPercent] of the points. *)
Record mask : Type := Mask {
  m_x : bool;
  m_y : bool;
  m_error : bool;
  m_text : bool;
  m_hover : bool;
  m_percent : bool
}.

Definition erase_points (b : bool) (data : list (value * Point.t))
    : list (value * Point.t) :=
  if b then prod_map id (Point.set_yPercent None) <$> data else data.

Definition erase_array (b : bool) (l : list value) : list value :=
  if b then [] else l.

Definition erase_series (m : mask) (s : Series.t) : Series.t :=
  Series.mk (Series.name s) (Series.visible s) (Series.yaxis s)
    (erase_points (m_percent m) (Series.sourceData s))
    (erase_array (m_x m) (Series.x s))
    (erase_array (m_y m) (Series.y s))
    (erase_array (m_error m) (Series.error_y_array s))
    (erase_array (m_text m) (Series.text s))
    (erase_array (m_hover m) (Series.hover s))
    (Series.labels s).

Definition erase (m : mask) (seriesList : list Series.t) : list Series.t :=
  erase_series m <$> seriesList.

(** The fields the transform overwrites on a visible series. *)
Definition writes (options : Options.t) : mask :=
  if decide (is_pie options) then Mask false false false true true false
  else if decide (is_heatmap options)
  then Mask false false false false false false
  else
    let p := Options.series_percentValues options in
    let u := unifies options in
    Mask u (p || u) u true true p.

(** Whether the arrays of an input series are parallel; in percent mode
    the y array is rebuilt from [sourceData], which then has to hold one
    point per entry of [x]. *)
Definition parallel_input (options : Options.t) (s : Series.t) : Prop :=
  length (Series.x s) = length (Series.y s)
  ∧ length (Series.y s) = length (Series.error_y_array s)
  ∧ (Options.series_percentValues options = true →
     length (Series.sourceData s) = length (Series.x s)).

(** ** Inputs of the examples *)

Module Inputs.
Import Demo.

(** A series built from two rows with the same x: the arrays list both
    rows, the [Map] holds the point of the last one. *)
Definition duplicate_rows : list Series.t :=
  [ series_of "A" true [("a", int 1); ("a", int 2)] [("a", int 2)] ].

Definition percent_columns : Options.t := options "column" true false false.

End Inputs.

(** ** Auxiliary notions of the percent pass *)

(** The rational behind a finite number. *)
Definition fin_part (a : num) : Qc :=
  match a with Fin q => q | _ => Q2Qc 0 end.

(** What the first loop of [updatePercentValues] does to the entry of
    one key when it meets a point with that x. *)
Definition sum_step (sum : option num) (item : Point.t) : option num :=
  Some (Num.add (or_zero sum) (Num.abs (Point.y item))).

Module PercentInputs.
Import Demo.

(** Two visible series with opposite values at the same x. *)
Definition opposite : list Series.t :=
  [ series "A" true [("a", int (-1))]; series "B" true [("a", int 1)] ].


(** Two visible series that are zero at the same x. *)
Definition zeros : list Series.t :=
  [ series "A" true [("a", int 0); ("b", int 3)];
    series "B" true [("a", int 0); ("b", int 1)] ].

(** Two visible series, one hidden. *)
Definition shares : list Series.t :=
  [ series "A" true [("a", int 30)]; series "B" true [("a", int 70)];
    series "C" false [("a", int 5)] ].

End PercentInputs.

(** ** Auxiliary notions of the text pass *)

(** The point with its share negated: [-item.yPercent]. *)
Definition negate_yPercent (p : Point.t) : Point.t :=
  Point.set_yPercent (Some (Num.neg (get_num (Point.yPercent p)))) p.

Definition negate_shares (s : Series.t) : Series.t :=
  Series.set_sourceData
    (prod_map id negate_yPercent <$> Series.sourceData s) s.

(** The names of the tokens the transform sets. *)
Definition token_names : list string :=
  ["@@name"; "@@x"; "@@y"; "@@yError"; "@@size"; "@@yPercent"].

(** The raw fields of the row do not use the name of a token. *)
Definition raw_apart (item : Point.t) : Prop :=
  Forall (λ k, Row.raw (Point.row item) !! k = None) token_names.

Module TextInputs.
Import Demo.

(** A point of a scatter series: the row has the text ["7 USD"] for y,
    the point the number read from it. *)
Definition priced : Point.t :=
  Point.mk (VStr "a") (int 7) None None None
           (Row.mk (VStr "a") (VStr "7 USD") ∅).


Definition scatter : Options.t := options "scatter" false false false.

(** A pie configuration without [percentValues]. *)
Definition pie : Options.t := options "pie" false false false.

(** A point with a negative share, as the loader builds it for a pie. *)
Definition negative : Point.t :=
  Point.mk (VStr "a") (int (-30)) None None (Some (int (-30)))
           (Row.mk (VStr "a") (VNum (int (-30))) ∅).

Definition negative_series : Series.t :=
  Series.mk "P" true "y" [(VStr "a", negative)]
            [] [] [] [] [] [VStr "a"].

End TextInputs.

Module StackInputs.
Import Demo.

(** Two aligned series to be stacked, and a hidden one. *)
Definition aligned : list Series.t :=
  [ series "A" true [("a", int 1); ("b", int 2)];
    series "H" false [("a", int 9)];
    series "B" true [("a", int 3); ("b", int 4)] ].

Definition stacked_lines : Options.t := options "line" false true false.

(** Two series over a category axis; the second lacks an x. *)
Definition ragged : list Series.t :=
  [ series "A" true [("b", int 1); ("a", int 2)];
    series "B" true [("a", int 3)] ].

Definition sorted_lines : Options.t := options "line" false false true.

End StackInputs.

Module PieInputs.
Import Demo.

(** A point of a pie series, with the share the loader gave it. *)
Definition slice (x : string) (y share : num) : value * Point.t :=
  (VStr x,
   Point.mk (VStr x) y None None (Some share) (Row.mk (VStr x) (VNum y) ∅)).

Definition pie_series (name : string) (x : string) (y share : num)
    : Series.t :=
  Series.mk name true "y" [slice x y share] [] [] [] [] [] [VStr x].

Definition two_slices : list Series.t :=
  [ pie_series "A" "A" (int 30) (int 30);
    pie_series "B" "A" (int 70) (int 70) ].

End PieInputs.

(** ** What the transform leaves alone *)

(** A point without its share. *)
Definition point_data (p : Point.t)
    : value * num * option num * option num * Row.t :=
  (Point.x p, Point.y p, Point.yError p, Point.size p, Point.row p).

(** The part of a series no pass writes: its name, flags and labels, and
    its points, in order, without their shares. *)
Definition series_frame (s : Series.t)
    : string * bool * string * list value
      * list (value * (value * num * option num * option num * Row.t)) :=
  (Series.name s, Series.visible s, Series.yaxis s, Series.labels s,
   prod_map id point_data <$> Series.sourceData s).

Module DispatchInputs.
Import Demo.

Definition heatmap : Options.t := options "heatmap" true true true.

(** Columns with stacking: a family other than line and area. *)
Definition stacked_columns : Options.t := options "column" false true true.

End DispatchInputs.

(** ** The default labels, spelled out *)

Section Labels.
Context {imports : Imports}.

(** The default label of a point outside the pie family:
    [y], then [" ± " yError], then [yPercent " (" .. ")"] around it, then
    [": " size]. *)
Definition default_label (options : Options.t) (item : Point.t) : string :=
  let formatNumber := createNumberFormatter (Options.numberFormat options) in
  let formatPercent := createNumberFormatter (Options.percentFormat options) in
  let result := formatNumber (Point.y item) in
  let result :=
    match Point.yError item with
    | Some e => result +:+ " ± " +:+ formatNumber e
    | None => result
    end in
  let result :=
    if Options.series_percentValues options
    then formatPercent (abs_opt (Point.yPercent item))
           +:+ " (" +:+ result +:+ ")"
    else result in
  match Point.size item with
  | Some z => result +:+ ": " +:+ formatNumber z
  | None => result
  end.

(** The default label of a point of a pie. *)
Definition pie_label (options : Options.t) (item : Point.t) : string :=
  let formatNumber := createNumberFormatter (Options.numberFormat options) in
  let formatPercent := createNumberFormatter (Options.percentFormat options) in
  formatPercent (abs_opt (Point.yPercent item))
    +:+ " (" +:+ formatNumber (Point.y item) +:+ ")".

(** Whether the y of the series is shown as it is in the row. *)
Definition yValueIsAny (options : Options.t) (series : Series.t) : bool :=
  bool_decide (seriesType options series = Some "bubble"
               ∨ seriesType options series = Some "scatter").

End Labels.

(** The options with another chart family. *)
Definition with_type (type : string) (o : Options.t) : Options.t :=
  Options.mk type (Options.seriesOptions o)
    (Options.series_percentValues o) (Options.series_stacking o)
    (Options.sortX o) (Options.xAxis_type o) (Options.yAxis0_type o)
    (Options.yAxis1_type o) (Options.numberFormat o)
    (Options.percentFormat o) (Options.dateTimeFormat o)
    (Options.textFormat o).

(** The options with other flags for percent values, stacking and
    sorting. *)
Definition with_flags (percentValues stacking sortX : bool) (o : Options.t)
    : Options.t :=
  Options.mk (Options.globalSeriesType o) (Options.seriesOptions o)
    percentValues stacking sortX (Options.xAxis_type o)
    (Options.yAxis0_type o) (Options.yAxis1_type o)
    (Options.numberFormat o) (Options.percentFormat o)
    (Options.dateTimeFormat o) (Options.textFormat o).

Module LabelInputs.
Import Demo.

(** A point with an error and a size. *)
Definition full : Point.t :=
  Point.mk (VStr "a") (int 5) (Some (int 1)) (Some (int 9)) None
           (Row.mk (VStr "a") (VNum (int 5)) {[ "city" := VStr "Oslo" ]}).

Definition full_series : Series.t :=
  Series.mk "S" true "y" [(VStr "a", full)]
            [VStr "a"; VStr "b"] [VNum (int 5); VNull] [VUndef; VNull]
            [] [] [VStr "a"; VStr "b"].

Definition columns : Options.t := options "column" false false false.



End LabelInputs.

(** ** The order of the sorted domain *)

Section SortOrder.
Context {imports : Imports}.

(** [a] is not greater than [b] in the comparison [sortBy] sorts by. *)
Definition sort_leq (a b : value) : Prop := compareAscending a b ≠ Gt.

(** The comparison is a total preorder on the values of a list: it is
    never greater both ways, and not being greater is transitive. *)
Definition comparable (l : list value) : Prop :=
  (∀ a b, a ∈ l → b ∈ l →
     compareAscending a b = Gt → compareAscending b a ≠ Gt)
  ∧ (∀ a b c, a ∈ l → b ∈ l → c ∈ l →
       sort_leq a b → sort_leq b c → sort_leq a c).

End SortOrder.

Module SortInputs.
Import Demo.

Definition keyed (x : value) (y : num) : value * Point.t :=
  (x, Point.mk x y None None None (Row.mk x (VNum y) ∅)).

(** A series whose x values are strings and numbers, in the order
    b, 2, a, 1. *)
Definition mixed : list Series.t :=
  [ Series.mk "M" true "y"
      [ keyed (VStr "b") (int 1); keyed (VNum (int 2)) (int 1);
        keyed (VStr "a") (int 1); keyed (VNum (int 1)) (int 1) ]
      [] [] [] [] [] [] ].

End SortInputs.



(** The series with the share of every point set to [share]. *)
Definition set_share (share : option num) (s : Series.t) : Series.t :=
  Series.set_sourceData
    (prod_map id (Point.set_yPercent share) <$> Series.sourceData s) s.

Module OverrideInputs.
Import Demo.

(** A point of a pie whose row has a column named like a token. *)
Definition shadowed : Point.t :=
  Point.mk (VStr "a") (int (-30)) None None (Some (int (-30)))
           (Row.mk (VStr "a") (VNum (int (-30)))
                   {[ "@@yPercent" := VStr "raw" ]}).

Definition shadowed_series : Series.t :=
  Series.mk "P" true "y" [(VStr "a", shadowed)] [] [] [] [] [] [VStr "a"].

End OverrideInputs.
Section FirstSeen.
Context {imports : Imports}.

(** *** Maps and sets *)

Lemma foldl_bind {A B C} (f : A → C → A) (g : B → list C) (a : A) (l : list B) :
  foldl (λ acc b, foldl f acc (g b)) a l = foldl f a (l ≫= g).
Proof.
  revert a. induction l as [|b l IH]; intros a; simpl; [done|].
  by rewrite foldl_app, IH.
Qed.

Lemma filter_all {A} (P : A → Prop) `{∀ a, Decision (P a)} (l : list A) :
  Forall P l → filter P l = l.
Proof.
  induction 1 as [|a l Ha _ IH]; [done|].
  by rewrite filter_cons_True, IH.
Qed.

Lemma foldl_set_add (acc l : list value) :
  foldl (λ set a, set_add a set) acc l
  = acc ++ filter (λ b, b ∉ acc) (first_seen l).
Proof.
  revert acc. induction l as [|a l IH]; intros acc; simpl.
  - by rewrite app_nil_r.
  - rewrite IH. unfold set_add. rewrite filter_cons.
    destruct (decide (a ∈ acc)) as [Hin|Hin].
    + rewrite decide_False by (intros Hn; by apply Hn).
      f_equal. rewrite list_filter_filter. apply list_filter_iff.
      intros b. split; [intros Hb; split; [done|]|by intros [? _]].
      intros ->. done.
    + rewrite decide_True by done.
      rewrite <- app_assoc. simpl. do 2 f_equal.
      rewrite list_filter_filter. apply list_filter_iff.
      intros b. rewrite not_elem_of_app, list_elem_of_singleton. tauto.
Qed.

Lemma first_seen_elem_of (l : list value) x : x ∈ first_seen l ↔ x ∈ l.
Proof.
  induction l as [|a l IH]; simpl; [done|].
  rewrite !elem_of_cons, list_elem_of_filter, IH.
  destruct (decide (x = a)); tauto.
Qed.

Lemma first_seen_NoDup (l : list value) : NoDup (first_seen l).
Proof.
  induction l as [|a l IH]; simpl; [constructor|].
  constructor.
  - rewrite list_elem_of_filter. by intros [Hne _].
  - by apply NoDup_filter.
Qed.

Lemma getUnifiedXAxisValues_unsorted (seriesList : list Series.t) :
  getUnifiedXAxisValues seriesList false
  = first_seen (Point.x <$> (seriesList ≫= items)).
Proof.
  unfold getUnifiedXAxisValues.
  rewrite (foldl_bind (λ set item, set_add (Point.x item) set) items).
  rewrite <- (foldl_fmap (λ set a, set_add a set) [] _ Point.x).
  rewrite foldl_set_add. simpl. apply filter_all, Forall_forall.
  intros x _. apply not_elem_of_nil.
Qed.

End FirstSeen.

Section StableSort.
Context {imports : Imports}.

Lemma insert_by_Permutation x l : insert_by x l ≡ₚ x :: l.
Proof.
  induction l as [|e l IH]; simpl; [done|].
  destruct (compareAscending x e); try done.
  rewrite IH. apply Permutation_swap.
Qed.

Lemma sortBy_Permutation l : sortBy l ≡ₚ l.
Proof.
  unfold sortBy. induction l as [|x l IH]; simpl; [done|].
  by rewrite insert_by_Permutation, IH.
Qed.

Lemma insert_by_sorted (domain l : list value) x :
  comparable domain →
  x ∈ domain → Forall (λ e, e ∈ domain) l →
  StronglySorted sort_leq l →
  StronglySorted sort_leq (insert_by x l).
Proof.
  intros [Hasym Htrans] Hx Hl Hsorted.
  induction Hsorted as [|e l Hsorted IH He]; simpl.
  - repeat constructor.
  - apply Forall_cons in Hl as [Hed Hl].
    destruct (compareAscending x e) eqn:Hcmp.
    + constructor; [by constructor|]. constructor.
      * unfold sort_leq. by rewrite Hcmp.
      * rewrite Forall_forall in He, Hl. apply Forall_forall. intros c Hc.
        apply (Htrans x e c); auto. unfold sort_leq. by rewrite Hcmp.
    + constructor; [by constructor|]. constructor.
      * unfold sort_leq. by rewrite Hcmp.
      * rewrite Forall_forall in He, Hl. apply Forall_forall. intros c Hc.
        apply (Htrans x e c); auto. unfold sort_leq. by rewrite Hcmp.
    + constructor; [by apply IH|].
      rewrite insert_by_Permutation. constructor; [|done].
      by apply Hasym.
Qed.

Lemma sortBy_sorted (domain l : list value) :
  comparable domain →
  Forall (λ e, e ∈ domain) l →
  StronglySorted sort_leq (sortBy l).
Proof.
  intros Hc Hl. unfold sortBy.
  induction Hl as [|x l Hx Hl IH]; simpl; [constructor|].
  apply (insert_by_sorted domain); [done..| |done].
  fold (sortBy l). by rewrite sortBy_Permutation.
Qed.

End StableSort.
Section UnifiedDomain.
Context {imports : Imports}.

Lemma items_keys (series : Series.t) :
  keyed_by_x series → Point.x <$> items series = keys series.
Proof.
  unfold keyed_by_x, items, keys.
  induction 1 as [|[k p] l Hk _ IH]; [done|].
  rewrite !fmap_cons. simpl in *. by rewrite <- IH, Hk.
Qed.

Lemma bind_items_keys (seriesList : list Series.t) :
  Forall keyed_by_x seriesList →
  Point.x <$> (seriesList ≫= items) = seriesList ≫= keys.
Proof.
  induction 1 as [|s l Hs _ IH]; [done|].
  by rewrite !bind_cons, fmap_app, IH, items_keys.
Qed.

Lemma unify_series_x options defaultY unifiedX series :
  Series.x (unify_series options defaultY unifiedX series) = unifiedX.
Proof. done. Qed.

(** C5 (as amended). The unified x domain of the visible series is the
    union of their point keys in first-seen order (series in caller
    order, the points of a series in insertion order) when it is not
    sorted.  When it is sorted it is a rearrangement of that union and,
    provided the comparison of [sortBy] is a total preorder on the x
    values, the domain, and with it the x array rebuilt for every
    series, is non-decreasing: no entry is greater than a later one. *)
Theorem unified_x_domain (seriesList : list Series.t) :
  let visible := visibleSeries seriesList in
  let domain := getUnifiedXAxisValues visible false in
  let sorted := getUnifiedXAxisValues visible true in
  Forall keyed_by_x visible →
  domain = first_seen (visible ≫= keys)
  ∧ NoDup domain
  ∧ (∀ x, x ∈ domain ↔ ∃ s, s ∈ visible ∧ x ∈ keys s)
  ∧ sorted ≡ₚ domain
  ∧ (comparable domain →
     StronglySorted sort_leq sorted
     ∧ ∀ options defaultY s,
         Options.sortX options = true →
         s ∈ updateUnifiedXAxisValues visible options defaultY →
         Series.x s = sorted ∧ StronglySorted sort_leq (Series.x s)).
Proof.
  intros visible domain sorted Hkeyed.
  assert (Hdom : domain = first_seen (visible ≫= keys)).
  { unfold domain. by rewrite getUnifiedXAxisValues_unsorted, bind_items_keys. }
  split; [done|].
  split; [rewrite Hdom; apply first_seen_NoDup|].
  split.
  { intros x. rewrite Hdom, first_seen_elem_of, list_elem_of_bind.
    split; intros (s & H1 & H2); exists s; tauto. }
  split.
  { unfold sorted, domain, getUnifiedXAxisValues. apply sortBy_Permutation. }
  intros Hcomparable.
  assert (Hsorted : StronglySorted sort_leq sorted).
  { unfold sorted, getUnifiedXAxisValues.
    apply (sortBy_sorted domain); [done|].
    by apply Forall_forall. }
  split; [done|].
  intros options defaultY s HsortX Hs.
  unfold updateUnifiedXAxisValues in Hs. rewrite HsortX in Hs.
  apply list_elem_of_fmap in Hs as (s0 & -> & _).
  by rewrite unify_series_x.
Qed.

(** On x values of mixed kinds the sorted domain need not be in order:
    a string and a number compare as equal both ways, so the keys b, 2,
    a, 1 are returned as they came, b before a. *)
Lemma mixed_keys_not_sorted :
  getUnifiedXAxisValues (imports := Demo.imports)
    (visibleSeries SortInputs.mixed) true
  = [VStr "b"; VNum (Demo.int 2); VStr "a"; VNum (Demo.int 1)]
  ∧ compareAscending (Imports := Demo.imports) (VStr "b") (VStr "a") = Gt.
Proof. by split; apply (bool_decide_unpack _). Qed.

End UnifiedDomain.
Section UnifiedAxis.
Context {imports : Imports}.

Lemma updateUnifiedXAxisValues_lookup seriesList options defaultY n s' :
  updateUnifiedXAxisValues seriesList options defaultY !! n = Some s' →
  ∃ s, seriesList !! n = Some s
       ∧ s' = unify_series options (default VNull defaultY)
                (getUnifiedXAxisValues seriesList (Options.sortX options)) s.
Proof.
  unfold updateUnifiedXAxisValues. rewrite list_lookup_fmap.
  destruct (seriesList !! n) as [s|]; simpl; [|done].
  intros [= <-]. exists s. split; [done|]. by destruct defaultY.
Qed.

Lemma updateVisible_unified (visible : list Series.t) options :
  unification_runs options →
  updateVisible visible options
  = updateSeriesText
      ((if Options.series_stacking options then accumulate None else id)
         (updateUnifiedXAxisValues (updatePercentValues visible options)
            options (fillY options)))
      options.
Proof.
  intros (Hpie & Hheat & Hrun). unfold updateVisible.
  unfold is_pie, is_heatmap, unifies, is_line_area in *.
  case_bool_decide as Hlen.
  - rewrite decide_False by done.
    destruct (decide (_ ∨ _)) as [Hla|Hla].
    + unfold updateLineAreaData, fillY.
      destruct (Options.series_stacking options); [done|].
      simpl in Hrun. by rewrite Hrun.
    + rewrite decide_False by done.
      unfold updateDefaultData, fillY. rewrite Hrun.
      by destruct (Options.series_stacking options).
  - assert (visible = []) as -> by (destruct visible; simpl in *; [done|lia]).
    unfold updatePercentValues, updateUnifiedXAxisValues, updateSeriesText.
    by destruct (Options.series_percentValues options),
                (Options.series_stacking options).
Qed.

Lemma updateVisible_plain (visible : list Series.t) options :
  ¬ is_pie options → ¬ is_heatmap options → unifies options = false →
  updateVisible visible options
  = updateSeriesText (updatePercentValues visible options) options.
Proof.
  intros Hpie Hheat Hrun. unfold updateVisible.
  unfold is_pie, is_heatmap, unifies, is_line_area in *.
  case_bool_decide as Hlen.
  - rewrite decide_False by done.
    destruct (decide (_ ∨ _)) as [Hla|Hla].
    + unfold updateLineAreaData.
      apply orb_false_iff in Hrun as [-> ->]. done.
    + rewrite decide_False by done.
      unfold updateDefaultData. by rewrite Hrun.
  - assert (visible = []) as -> by (destruct visible; simpl in *; [done|lia]).
    unfold updatePercentValues, updateSeriesText.
    by destruct (Options.series_percentValues options).
Qed.

Lemma updateVisible_pie (visible : list Series.t) options :
  is_pie options →
  updateVisible visible options = updateSeriesText visible options.
Proof.
  intros Hpie. unfold updateVisible, is_pie in *.
  case_bool_decide as Hlen.
  - by rewrite decide_True by done.
  - by assert (visible = []) as -> by (destruct visible; simpl in *; [done|lia]).
Qed.

(** C6. When the x axis is unified, the arrays of every visible series
    are rebuilt over the shared domain: at an x where the series has a
    point, its y (its percent share in percent mode) and its yError are
    emitted; at an x where it has none, y is filled with 0 when
    stacking and with null otherwise, and the error with null. *)
Theorem unified_axis_fill (visible : list Series.t) (options : Options.t) :
  unification_runs options →
  let percented := updatePercentValues visible options in
  let domain := getUnifiedXAxisValues percented (Options.sortX options) in
  let unified := updateUnifiedXAxisValues percented options (fillY options) in
  updateVisible visible options
  = updateSeriesText
      ((if Options.series_stacking options then accumulate None else id)
         unified) options
  ∧ ∀ n s' i x,
      unified !! n = Some s' →
      domain !! i = Some x →
      ∃ s, percented !! n = Some s
        ∧ Series.x s' !! i = Some x
        ∧ match map_get x (Series.sourceData s) with
          | Some item =>
              Series.y s' !! i
              = Some (if Options.series_percentValues options
                      then of_opt (Point.yPercent item)
                      else VNum (Point.y item))
              ∧ Series.error_y_array s' !! i
                = Some (of_opt (Point.yError item))
          | None =>
              Series.y s' !! i
              = Some (if Options.series_stacking options
                      then VNum Num.zero else VNull)
              ∧ Series.error_y_array s' !! i = Some VNull
          end.
Proof.
  intros Hrun percented domain unified.
  split; [by apply updateVisible_unified|].
  intros n s' i x Hs' Hx.
  apply updateUnifiedXAxisValues_lookup in Hs' as (s & Hs & ->).
  exists s. split; [done|]. fold domain.
  unfold unify_series; simpl. rewrite !list_lookup_fmap, Hx. simpl.
  split; [done|].
  unfold unified_y, unified_error, fillY.
  destruct (map_get x (Series.sourceData s)) as [item|]; [done|].
  by destruct (Options.series_stacking options).
Qed.

End UnifiedAxis.
Section Frames.
Context {imports : Imports}.

Lemma erase_nothing seriesList :
  erase (Mask false false false false false false) seriesList = seriesList.
Proof.
  unfold erase. induction seriesList as [|[] l IH]; [done|].
  rewrite fmap_cons, IH. done.
Qed.

Lemma erase_visible m seriesList :
  Series.visible <$> erase m seriesList = Series.visible <$> seriesList.
Proof. unfold erase. rewrite <- list_fmap_compose. done. Qed.

Lemma items_erase m s :
  items (erase_series m s)
  = (if m_percent m then Point.set_yPercent None else id) <$> items s.
Proof.
  unfold items; simpl. unfold erase_points.
  destruct (m_percent m).
  - rewrite <- !list_fmap_compose. by apply list_fmap_ext.
  - by rewrite list_fmap_id.
Qed.

Lemma bind_items_erase m seriesList :
  erase m seriesList ≫= items
  = (if m_percent m then Point.set_yPercent None else id)
      <$> (seriesList ≫= items).
Proof.
  unfold erase. induction seriesList as [|s l IH]; [done|].
  by rewrite fmap_cons, !bind_cons, fmap_app, IH, items_erase.
Qed.

Lemma sumOfCorrespondingPoints_flat seriesList :
  sumOfCorrespondingPoints seriesList
  = foldl add_point [] (seriesList ≫= items).
Proof. apply (foldl_bind add_point items). Qed.

Lemma sumOfCorrespondingPoints_erase m seriesList :
  sumOfCorrespondingPoints (erase m seriesList)
  = sumOfCorrespondingPoints seriesList.
Proof.
  rewrite !sumOfCorrespondingPoints_flat, bind_items_erase.
  rewrite foldl_fmap. by destruct (m_percent m).
Qed.

Lemma getUnifiedXAxisValues_flat seriesList sorted :
  getUnifiedXAxisValues seriesList sorted
  = let result := foldl (λ set item, set_add (Point.x item) set) []
                        (seriesList ≫= items) in
    if sorted then sortBy result else result.
Proof.
  unfold getUnifiedXAxisValues.
  by rewrite (foldl_bind (λ set item, set_add (Point.x item) set) items).
Qed.

Lemma getUnifiedXAxisValues_erase m seriesList sorted :
  getUnifiedXAxisValues (erase m seriesList) sorted
  = getUnifiedXAxisValues seriesList sorted.
Proof.
  rewrite !getUnifiedXAxisValues_flat, bind_items_erase.
  rewrite foldl_fmap. by destruct (m_percent m).
Qed.

(** **** Percent values *)

Lemma percent_series_erase sums a b c d e f s :
  percent_series sums (erase_series (Mask a b c d e f) s)
  = erase_series (Mask a false c d e false) (percent_series sums s).
Proof.
  unfold percent_series, erase_series; simpl.
  assert (prod_map id (percent_item sums) <$> erase_points f (Series.sourceData s)
          = prod_map id (percent_item sums) <$> Series.sourceData s) as ->; [|done].
  unfold erase_points. destruct f; [|done].
  rewrite <- list_fmap_compose. by apply list_fmap_ext.
Qed.

Lemma updatePercentValues_erase options a b c d e f seriesList :
  Options.series_percentValues options = true →
  updatePercentValues (erase (Mask a b c d e f) seriesList) options
  = erase (Mask a false c d e false) (updatePercentValues seriesList options).
Proof.
  intros Hp. unfold updatePercentValues. rewrite Hp.
  rewrite sumOfCorrespondingPoints_erase. unfold erase.
  rewrite <- !list_fmap_compose. apply list_fmap_ext.
  intros _ s _. apply percent_series_erase.
Qed.

Lemma erase_updatePercentValues options a c d e seriesList :
  erase (Mask a true c d e true) (updatePercentValues seriesList options)
  = erase (Mask a true c d e true) seriesList.
Proof.
  unfold updatePercentValues.
  destruct (Options.series_percentValues options); [|done].
  unfold erase. rewrite <- list_fmap_compose. apply list_fmap_ext.
  intros _ s _. unfold erase_series, percent_series; simpl.
  f_equal. rewrite <- list_fmap_compose. by apply list_fmap_ext.
Qed.

(** **** The unified x axis *)

Lemma updateUnifiedXAxisValues_erase options defaultY a b c d e seriesList :
  updateUnifiedXAxisValues (erase (Mask a b c d e false) seriesList)
    options defaultY
  = erase (Mask false false false d e false)
      (updateUnifiedXAxisValues seriesList options defaultY).
Proof.
  unfold updateUnifiedXAxisValues.
  rewrite getUnifiedXAxisValues_erase. unfold erase.
  rewrite <- !list_fmap_compose. by apply list_fmap_ext.
Qed.

Lemma erase_updateUnifiedXAxisValues options defaultY d e f seriesList :
  erase (Mask true true true d e f)
    (updateUnifiedXAxisValues seriesList options defaultY)
  = erase (Mask true true true d e f) seriesList.
Proof.
  unfold updateUnifiedXAxisValues, erase.
  rewrite <- list_fmap_compose. by apply list_fmap_ext.
Qed.

(** **** Stacking *)

Lemma accumulate_erase a c d e f prev seriesList :
  accumulate (erase_series (Mask a false c d e f) <$> prev)
    (erase (Mask a false c d e f) seriesList)
  = erase (Mask a false c d e f) (accumulate prev seriesList).
Proof.
  unfold erase. revert prev.
  induction seriesList as [|s l IH]; intros prev; [done|].
  rewrite fmap_cons. simpl. f_equal.
  - by destruct prev.
  - rewrite <- IH. by destruct prev.
Qed.

Lemma erase_accumulate a c d e f prev seriesList :
  erase (Mask a true c d e f) (accumulate prev seriesList)
  = erase (Mask a true c d e f) seriesList.
Proof.
  unfold erase. revert prev.
  induction seriesList as [|s l IH]; intros prev; [done|].
  simpl. rewrite IH. f_equal. by destruct prev.
Qed.

(** **** Text labels *)

Lemma tokens_erase options b c d e s x :
  tokens options (erase_series (Mask false b c d e false) s) x
  = tokens options s x.
Proof. done. Qed.

Lemma updateSeriesText_erase options b c d e seriesList :
  updateSeriesText (erase (Mask false b c d e false) seriesList) options
  = erase (Mask false b c false false false)
      (updateSeriesText seriesList options).
Proof.
  unfold updateSeriesText, erase.
  rewrite <- !list_fmap_compose. by apply list_fmap_ext.
Qed.

Lemma erase_updateSeriesText options a b c f seriesList :
  erase (Mask a b c true true f) (updateSeriesText seriesList options)
  = erase (Mask a b c true true f) seriesList.
Proof.
  unfold updateSeriesText, erase.
  rewrite <- list_fmap_compose. by apply list_fmap_ext.
Qed.

End Frames.
Section Pipelines.
Context {imports : Imports}.

Lemma updatePercentValues_off options seriesList :
  Options.series_percentValues options = false →
  updatePercentValues seriesList options = seriesList.
Proof. intros Hp. unfold updatePercentValues. by rewrite Hp. Qed.

Lemma accumulate_None_erase a c d e f seriesList :
  accumulate None (erase (Mask a false c d e f) seriesList)
  = erase (Mask a false c d e f) (accumulate None seriesList).
Proof. apply (accumulate_erase a c d e f None). Qed.

Lemma length_erase m seriesList : length (erase m seriesList) = length seriesList.
Proof. apply length_fmap. Qed.

Ltac frame_rewrite :=
  repeat first
    [ rewrite updatePercentValues_erase by done
    | rewrite updatePercentValues_off by done
    | rewrite updateUnifiedXAxisValues_erase
    | rewrite accumulate_None_erase
    | rewrite updateSeriesText_erase
    | rewrite erase_updateSeriesText
    | rewrite erase_accumulate
    | rewrite erase_updateUnifiedXAxisValues
    | rewrite erase_updatePercentValues
    | rewrite erase_nothing ].

Lemma updateVisible_erase options visible :
  updateVisible (erase (writes options) visible) options
  = updateVisible visible options.
Proof.
  unfold updateVisible, writes, unifies. rewrite length_erase.
  case_bool_decide; [|].
  2:{ repeat case_decide; try done; unfold erase;
      destruct visible; simpl in *; try done; lia. }
  unfold is_pie, is_heatmap, is_line_area.
  destruct (decide (Options.globalSeriesType options = "pie")).
  { unfold updatePieData. by frame_rewrite. }
  destruct (decide (_ ∨ _)).
  { rewrite decide_False
      by (intros Hh; destruct o as [Ho|Ho]; by rewrite Ho in Hh).
    unfold updateLineAreaData.
    destruct (Options.series_percentValues options) eqn:Hp,
             (Options.series_stacking options) eqn:Hs,
             (useUnifiedXAxis options) eqn:Hu; simpl; by frame_rewrite. }
  destruct (decide (Options.globalSeriesType options = "heatmap")).
  { by frame_rewrite. }
  unfold updateDefaultData.
  destruct (Options.series_percentValues options) eqn:Hp,
           (Options.series_stacking options) eqn:Hs,
           (useUnifiedXAxis options) eqn:Hu; simpl; by frame_rewrite.
Qed.

Lemma erase_updateVisible options visible :
  erase (writes options) (updateVisible visible options)
  = erase (writes options) visible.
Proof.
  unfold updateVisible, writes, unifies.
  case_bool_decide; [|done].
  unfold is_pie, is_heatmap, is_line_area.
  destruct (decide (Options.globalSeriesType options = "pie")).
  { unfold updatePieData. by frame_rewrite. }
  destruct (decide (_ ∨ _)).
  { rewrite decide_False
      by (intros Hh; destruct o as [Ho|Ho]; by rewrite Ho in Hh).
    unfold updateLineAreaData.
    destruct (Options.series_percentValues options) eqn:Hp,
             (Options.series_stacking options) eqn:Hs,
             (useUnifiedXAxis options) eqn:Hu; simpl; by frame_rewrite. }
  destruct (decide (Options.globalSeriesType options = "heatmap")); [done|].
  unfold updateDefaultData.
  destruct (Options.series_percentValues options) eqn:Hp,
           (Options.series_stacking options) eqn:Hs,
           (useUnifiedXAxis options) eqn:Hu; simpl; by frame_rewrite.
Qed.

Lemma updateVisible_idempotent options visible :
  updateVisible (updateVisible visible options) options
  = updateVisible visible options.
Proof.
  rewrite <- (updateVisible_erase options (updateVisible visible options)).
  by rewrite erase_updateVisible, updateVisible_erase.
Qed.

End Pipelines.
Section Dispatcher.
Context {imports : Imports}.

Lemma updateVisible_visible options visible :
  Series.visible <$> updateVisible visible options
  = Series.visible <$> visible.
Proof.
  rewrite <- (erase_visible (writes options)), erase_updateVisible.
  apply erase_visible.
Qed.

Lemma visibleSeries_visible seriesList :
  Forall (λ s, Series.visible s = true) (visibleSeries seriesList).
Proof.
  apply Forall_forall. intros s Hs.
  by apply list_elem_of_filter in Hs as [? _].
Qed.

Lemma Forall_visible_fmap (l k : list Series.t) :
  Series.visible <$> l = Series.visible <$> k →
  Forall (λ s, Series.visible s = true) k →
  Forall (λ s, Series.visible s = true) l.
Proof.
  revert k. induction l as [|a l IH]; intros [|b k] Heq Hk; try done.
  apply Forall_cons in Hk as [Hb Hk]. simpl in Heq.
  injection Heq as Hab Heq. constructor; [congruence|by eapply IH].
Qed.

Lemma visibleSeries_write_back seriesList visible :
  length visible = length (visibleSeries seriesList) →
  Forall (λ s, Series.visible s = true) visible →
  visibleSeries (write_back seriesList visible) = visible.
Proof.
  unfold visibleSeries. revert visible.
  induction seriesList as [|s l IH]; intros visible Hlen Hvis.
  - by destruct visible.
  - simpl. rewrite filter_cons in Hlen.
    destruct (Series.visible s) eqn:Hs.
    + rewrite decide_True in Hlen by done.
      destruct visible as [|v visible]; [done|].
      apply Forall_cons in Hvis as [Hv Hvis].
      rewrite filter_cons_True by done. f_equal.
      apply IH; [|done]. simpl in Hlen. lia.
    + rewrite decide_False in Hlen by done.
      rewrite filter_cons_False by (by rewrite Hs). by apply IH.
Qed.

Lemma write_back_write_back seriesList visible visible' :
  length visible = length (visibleSeries seriesList) →
  length visible' = length visible →
  Forall (λ s, Series.visible s = true) visible →
  write_back (write_back seriesList visible) visible'
  = write_back seriesList visible'.
Proof.
  unfold visibleSeries. revert visible visible'.
  induction seriesList as [|s l IH]; intros visible visible' Hlen Hlen' Hvis.
  - done.
  - simpl. rewrite filter_cons in Hlen.
    destruct (Series.visible s) eqn:Hs.
    + rewrite decide_True in Hlen by done.
      destruct visible as [|v visible]; [done|].
      destruct visible' as [|v' visible']; [done|].
      apply Forall_cons in Hvis as [Hv Hvis].
      simpl. rewrite Hv. f_equal.
      apply IH; [| |done]; simpl in *; lia.
    + rewrite decide_False in Hlen by done.
      simpl. rewrite Hs. f_equal. by apply IH.
Qed.

Lemma length_write_back seriesList visible :
  length (write_back seriesList visible) = length seriesList.
Proof.
  revert visible. induction seriesList as [|s l IH]; intros k; [done|].
  simpl. destruct (Series.visible s); [destruct k|]; simpl; by rewrite IH.
Qed.

Lemma length_updateVisible options visible :
  length (updateVisible visible options) = length visible.
Proof.
  rewrite <- (length_fmap Series.visible), updateVisible_visible.
  apply length_fmap.
Qed.

Lemma updateVisible_all_visible options seriesList :
  Forall (λ s, Series.visible s = true)
         (updateVisible (visibleSeries seriesList) options).
Proof.
  eapply Forall_visible_fmap; [apply updateVisible_visible|].
  apply visibleSeries_visible.
Qed.

(** The visible series of the result are the visible series of the
    input after the pipeline. *)
Lemma visibleSeries_updateData seriesList options :
  visibleSeries (updateData seriesList options)
  = updateVisible (visibleSeries seriesList) options.
Proof.
  unfold updateData. apply visibleSeries_write_back.
  - apply length_updateVisible.
  - apply updateVisible_all_visible.
Qed.

(** C4. The transform is idempotent: run on its own result, with the
    same configuration, it returns that result; so the output arrays
    (x, y, errorY, text, hover, labels) of every series, and the points
    behind them, are the same after one run and after two. *)
Theorem updateData_idempotent (seriesList : list Series.t) (options : Options.t) :
  updateData (updateData seriesList options) options
  = updateData seriesList options.
Proof.
  unfold updateData at 1. rewrite visibleSeries_updateData.
  rewrite updateVisible_idempotent. unfold updateData.
  apply write_back_write_back.
  - apply length_updateVisible.
  - done.
  - apply updateVisible_all_visible.
Qed.

End Dispatcher.

Section Stacking.
Context {imports : Imports}.

Lemma map_get_fmap {A B} (f : A → B) (k : value) (m : list (value * A)) :
  map_get k (prod_map id f <$> m) = f <$> map_get k m.
Proof.
  induction m as [|[k' a] m IH]; [done|].
  rewrite fmap_cons. simpl. by destruct (decide (k = k')).
Qed.



Lemma accumulate_length_y prev seriesList :
  (λ s, length (Series.y s)) <$> accumulate prev seriesList
  = (λ s, length (Series.y s)) <$> seriesList.
Proof.
  revert prev. induction seriesList as [|s l IH]; intros prev; [done|].
  simpl. rewrite IH. f_equal.
  destruct prev; [|done]. simpl. apply length_imap.
Qed.





Lemma getUnifiedXAxisValues_updatePercentValues seriesList options sorted :
  getUnifiedXAxisValues (updatePercentValues seriesList options) sorted
  = getUnifiedXAxisValues seriesList sorted.
Proof.
  rewrite <- (getUnifiedXAxisValues_erase (Mask false true false false false true)).
  rewrite erase_updatePercentValues.
  apply getUnifiedXAxisValues_erase.
Qed.



End Stacking.

Section Lengths.
Context {imports : Imports}.

Lemma erase_lookup m (l k : list Series.t) n a :
  erase m l = erase m k →
  l !! n = Some a →
  ∃ b, k !! n = Some b ∧ erase_series m a = erase_series m b.
Proof.
  intros Heq Ha.
  assert (H : erase m l !! n = Some (erase_series m a)).
  { unfold erase. by rewrite list_lookup_fmap, Ha. }
  rewrite Heq in H. unfold erase in H. rewrite list_lookup_fmap in H.
  destruct (k !! n) as [b|]; [|done]. simpl in H.
  exists b. split; [done|]. congruence.
Qed.

Lemma updateSeriesText_lookup seriesList options n s' :
  updateSeriesText seriesList options !! n = Some s' →
  ∃ s, seriesList !! n = Some s
    ∧ Series.x s' = Series.x s ∧ Series.y s' = Series.y s
    ∧ Series.error_y_array s' = Series.error_y_array s
    ∧ Series.labels s' = Series.labels s
    ∧ Series.sourceData s' = Series.sourceData s
    ∧ Series.hover s' = []
    ∧ Series.text s'
      = (λ x, createTextFormatter options (tokens options s x))
          <$> (if decide (is_pie options)
               then Series.labels s else Series.x s).
Proof.
  unfold updateSeriesText. rewrite list_lookup_fmap.
  destruct (seriesList !! n) as [s|]; [|done]. simpl.
  intros [= <-]. exists s. by repeat split.
Qed.

Lemma accumulate_lookup prev seriesList n s' :
  accumulate prev seriesList !! n = Some s' →
  ∃ s, seriesList !! n = Some s
    ∧ Series.x s' = Series.x s
    ∧ Series.error_y_array s' = Series.error_y_array s
    ∧ Series.sourceData s' = Series.sourceData s
    ∧ length (Series.y s') = length (Series.y s).
Proof.
  intros Hs'.
  destruct (erase_lookup (Mask false true false false false false)
              _ _ n s' (erase_accumulate _ _ _ _ _ prev seriesList) Hs')
    as (s & Hs & Heq).
  exists s. split; [done|].
  injection Heq as _ _ _ Hd Hx He _ _ _.
  repeat split; try done.
  assert (Hl : (λ s, length (Series.y s)) <$> accumulate prev seriesList !! n
               = Some (length (Series.y s'))) by (by rewrite Hs').
  rewrite <- list_lookup_fmap, accumulate_length_y, list_lookup_fmap, Hs in Hl.
  by injection Hl as <-.
Qed.

Lemma updatePercentValues_lookup seriesList options n s' :
  updatePercentValues seriesList options !! n = Some s' →
  ∃ s, seriesList !! n = Some s
    ∧ Series.x s' = Series.x s
    ∧ Series.error_y_array s' = Series.error_y_array s
    ∧ Series.labels s' = Series.labels s
    ∧ (if Options.series_percentValues options
       then s' = percent_series (sumOfCorrespondingPoints seriesList) s
       else s' = s).
Proof.
  unfold updatePercentValues.
  destruct (Options.series_percentValues options).
  - rewrite list_lookup_fmap.
    destruct (seriesList !! n) as [s|]; [|done]. simpl.
    intros [= <-]. exists s. by repeat split.
  - intros Hs. exists s'. by repeat split.
Qed.

(** C7 (as amended). For a visible series of a family other than pie
    and heatmap, the text array is parallel to x after the transform;
    when the x axis is unified, x, y, errorY and text all have the
    length of the unified domain; when it is not, x, y and errorY are
    parallel provided they were on input and, in percent mode,
    sourceData holds one point per entry of x.  For the pie family the
    text array is parallel to labels. *)
Theorem output_lengths (seriesList : list Series.t) (options : Options.t)
    (n : nat) (s' : Series.t) :
  let domain :=
    getUnifiedXAxisValues (visibleSeries seriesList) (Options.sortX options) in
  visibleSeries (updateData seriesList options) !! n = Some s' →
  ∃ s, visibleSeries seriesList !! n = Some s
    ∧ (is_pie options →
       length (Series.text s') = length (Series.labels s'))
    ∧ (¬ is_pie options → ¬ is_heatmap options →
       length (Series.text s') = length (Series.x s')
       ∧ (unifies options = true →
          length (Series.x s') = length domain
          ∧ length (Series.y s') = length domain
          ∧ length (Series.error_y_array s') = length domain)
       ∧ (unifies options = false → parallel_input options s →
          length (Series.x s') = length (Series.y s')
          ∧ length (Series.y s') = length (Series.error_y_array s'))).
Proof.
  intros domain Hs'. rewrite visibleSeries_updateData in Hs'.
  set (visible := visibleSeries seriesList) in *.
  assert (Hsome : ∃ s, visible !! n = Some s).
  { apply lookup_lt_is_Some. rewrite <- (length_updateVisible options).
    by eapply lookup_lt_Some. }
  destruct Hsome as [s Hs]. exists s. split; [done|]. split.
  - intros Hpie. rewrite (updateVisible_pie _ _ Hpie) in Hs'.
    apply updateSeriesText_lookup in Hs'
      as (s1 & Hs1 & _ & _ & _ & Hl & _ & _ & Ht).
    rewrite Ht, Hl, decide_True by done. apply length_fmap.
  - intros Hpie Hheat.
    destruct (unifies options) eqn:Hu.
    + rewrite updateVisible_unified in Hs' by done.
      apply updateSeriesText_lookup in Hs'
        as (s1 & Hs1 & Hx & Hy & He & _ & _ & _ & Ht).
      rewrite Ht, decide_False, length_fmap by done.
      split; [by rewrite Hx|]. split; [|done]. intros _.
      assert (Hs2 : ∃ s2,
        updateUnifiedXAxisValues (updatePercentValues visible options)
          options (fillY options) !! n = Some s2
        ∧ Series.x s1 = Series.x s2
        ∧ Series.error_y_array s1 = Series.error_y_array s2
        ∧ length (Series.y s1) = length (Series.y s2)).
      { destruct (Options.series_stacking options).
        - apply accumulate_lookup in Hs1 as (s2 & ? & ? & ? & _ & ?).
          by exists s2.
        - by exists s1. }
      destruct Hs2 as (s2 & Hs2 & Hx2 & He2 & Hy2).
      apply updateUnifiedXAxisValues_lookup in Hs2 as (s3 & _ & ->).
      rewrite getUnifiedXAxisValues_updatePercentValues in *.
      fold visible domain in Hx2, He2, Hy2.
      rewrite Hx, Hy, He, Hx2, He2, Hy2. simpl.
      by rewrite !length_fmap.
    + rewrite updateVisible_plain in Hs' by done.
      apply updateSeriesText_lookup in Hs'
        as (s1 & Hs1 & Hx & Hy & He & _ & _ & _ & Ht).
      rewrite Ht, decide_False, length_fmap by done.
      split; [by rewrite Hx|]. split; [done|].
      intros _ (Hxy & Hye & Hdata).
      apply updatePercentValues_lookup in Hs1
        as (s2 & Hs2 & Hx1 & He1 & _ & Hp).
      rewrite Hs in Hs2. injection Hs2 as <-.
      rewrite Hx, Hy, He, Hx1, He1.
      destruct (Options.series_percentValues options).
      * rewrite Hp. simpl. rewrite !length_fmap.
        rewrite Hdata by done. split; [done|congruence].
      * by rewrite Hp.
Qed.

(** Without those provisos the arrays need not be parallel: in percent
    mode without unification the y array is rebuilt from the one point
    the [Map] holds, while the x, errorY and text arrays keep one entry
    per row. *)
Lemma lengths_not_parallel :
  (λ s, (length (Series.x s), length (Series.y s),
         length (Series.error_y_array s), length (Series.text s)))
    <$> visibleSeries
          (updateData (imports := Demo.imports)
             Inputs.duplicate_rows Inputs.percent_columns)
  = [(2, 1, 2, 2)%nat].
Proof. vm_compute. reflexivity. Qed.

End Lengths.

Section Numbers.

Lemma Qc_sum_nonneg (a b : Qc) :
  (0 ≤ a)%Qc → (0 ≤ b)%Qc → (0 ≤ a + b)%Qc.
Proof.
  intros Ha Hb. rewrite <- (Qcplus_0_r 0). by apply Qcplus_le_compat.
Qed.

Lemma or_zero_Fin (s : Qc) : or_zero (Some (Fin s)) = Fin s.
Proof.
  unfold or_zero, Num.truthy. case_bool_decide as Hs; [done|].
  destruct (decide (s = Q2Qc 0)) as [->|]; [done|]. by destruct Hs.
Qed.

Lemma abs_neg (a : num) : Num.abs (Num.neg a) = Num.abs a.
Proof. destruct a; simpl; try done. by rewrite Qcabs_opp. Qed.

Lemma is_finite_Fin (a : num) :
  Num.is_finite a = true → a = Fin (fin_part a).
Proof. by destruct a. Qed.

Lemma add_finite_inv (a b : num) :
  Num.is_finite (Num.add a b) = true →
  Num.is_finite a = true ∧ Num.is_finite b = true.
Proof. by destruct a, b. Qed.

Lemma foldl_add_finite_inv (a : num) (l : list num) :
  Num.is_finite (foldl Num.add a l) = true →
  Num.is_finite a = true ∧ Forall (λ b, Num.is_finite b = true) l.
Proof.
  revert a. induction l as [|b l IH]; intros a H; simpl in *.
  - by split.
  - apply IH in H as [H Hl]. apply add_finite_inv in H as [Ha Hb].
    split; [done|by constructor].
Qed.

Lemma foldl_add_Fin (a : Qc) (l : list Qc) :
  foldl Num.add (Fin a) (Fin <$> l) = Fin (foldl Qcplus a l).
Proof. revert a. induction l as [|b l IH]; intros a; simpl; [done|apply IH]. Qed.


Lemma foldl_Qcplus_nonneg (a : Qc) (l : list Qc) :
  (0 ≤ a)%Qc → Forall (λ q, 0 ≤ q)%Qc l → (0 ≤ foldl Qcplus a l)%Qc.
Proof.
  revert a. induction l as [|b l IH]; intros a Ha Hl; simpl; [done|].
  apply Forall_cons in Hl as [Hb Hl]. apply IH; [|done].
  by apply Qc_sum_nonneg.
Qed.

Lemma Forall_Qcabs_nonneg (l : list Qc) : Forall (λ q, 0 ≤ q)%Qc (Qcabs <$> l).
Proof. apply Forall_fmap, Forall_forall. intros q _. apply Qcabs_nonneg. Qed.

Lemma q100_nonneg : (0 ≤ q100)%Qc.
Proof. by apply (bool_decide_unpack _). Qed.



End Numbers.

(** ** Stacking adds numbers *)

Section StackingSums.
Context {imports : Imports}.







End StackingSums.

Section Percent.
Context {imports : Imports}.

Lemma map_get_set_eq {V} (k : value) (v : V) (m : list (value * V)) :
  map_get k (map_set k v m) = Some v.
Proof.
  induction m as [|[k' v'] m IH]; simpl.
  - by rewrite decide_True.
  - destruct (decide (k = k')) as [->|Hne]; simpl.
    + by rewrite decide_True.
    + by rewrite decide_False.
Qed.

Lemma map_get_set_ne {V} (k k' : value) (v : V) (m : list (value * V)) :
  k ≠ k' → map_get k' (map_set k v m) = map_get k' m.
Proof.
  intros Hne. induction m as [|[k0 v0] m IH]; simpl.
  - by rewrite decide_False.
  - destruct (decide (k = k0)) as [->|Hne0]; simpl.
    + by rewrite !decide_False.
    + by rewrite IH.
Qed.

(** The entry of a key after the first loop depends on the points with
    that x only. *)
Lemma foldl_add_point_get (x : value) (sums : list (value * num))
    (ps : list Point.t) :
  map_get x (foldl add_point sums ps)
  = foldl sum_step (map_get x sums) (filter (λ p, Point.x p = x) ps).
Proof.
  revert sums. induction ps as [|p ps IH]; intros sums; simpl; [done|].
  rewrite IH, filter_cons. unfold add_point.
  destruct (decide (Point.x p = x)) as [<-|Hne]; simpl.
  - by rewrite map_get_set_eq.
  - by rewrite map_get_set_ne.
Qed.

Lemma sumOfCorrespondingPoints_get (x : value) seriesList :
  map_get x (sumOfCorrespondingPoints seriesList)
  = foldl sum_step None (points_at x seriesList).
Proof.
  by rewrite sumOfCorrespondingPoints_flat, foldl_add_point_get.
Qed.

Lemma foldl_sum_step_finite (a : Qc) (ps : list Point.t) :
  Forall (λ p, Num.is_finite (Point.y p) = true) ps →
  foldl sum_step (Some (Fin a)) ps
  = Some (foldl Num.add (Fin a) ((λ p, Num.abs (Point.y p)) <$> ps)).
Proof.
  revert a. induction ps as [|p ps IH]; intros a Hps; simpl; [done|].
  apply Forall_cons in Hps as [Hp Hps].
  unfold sum_step at 2. rewrite or_zero_Fin.
  rewrite (is_finite_Fin _ Hp). simpl. by apply IH.
Qed.

Lemma foldl_sum_step_abs_sum (ps : list Point.t) :
  Forall (λ p, Num.is_finite (Point.y p) = true) ps →
  ps ≠ [] →
  foldl sum_step None ps = Some (abs_sum ps).
Proof.
  destruct ps as [|p ps]; [done|]. intros Hps _.
  apply Forall_cons in Hps as [Hp Hps]. simpl.
  unfold sum_step at 2, abs_sum, sum_of. simpl.
  rewrite (is_finite_Fin _ Hp). simpl. by apply foldl_sum_step_finite.
Qed.

Lemma abs_sum_Fin (ps : list Point.t) :
  Forall (λ p, Num.is_finite (Point.y p) = true) ps →
  abs_sum ps
  = Fin (foldl Qcplus (Q2Qc 0) (Qcabs <$> ((λ p, fin_part (Point.y p)) <$> ps))).
Proof.
  intros Hps. unfold abs_sum, sum_of, Num.zero.
  rewrite <- foldl_add_Fin. f_equal.
  rewrite <- !list_fmap_compose. apply Forall_fmap_ext_1.
  eapply Forall_impl; [exact Hps|]. intros p Hp. simpl.
  by rewrite (is_finite_Fin _ Hp) at 1.
Qed.

(** **** The points after the transform *)

Lemma bind_items_sourceData (l k : list Series.t) :
  Series.sourceData <$> l = Series.sourceData <$> k →
  l ≫= items = k ≫= items.
Proof.
  revert k. induction l as [|a l IH]; intros [|b k] Heq; try done.
  simpl in Heq. injection Heq as Hab Heq.
  rewrite !bind_cons, (IH k Heq). unfold items. by rewrite Hab.
Qed.

Lemma erase_sourceData a b c d e seriesList :
  Series.sourceData <$> erase (Mask a b c d e false) seriesList
  = Series.sourceData <$> seriesList.
Proof. unfold erase. rewrite <- list_fmap_compose. by apply list_fmap_ext. Qed.

Lemma updateVisible_sourceData visible options :
  ¬ is_pie options → ¬ is_heatmap options →
  Series.sourceData <$> updateVisible visible options
  = Series.sourceData <$> updatePercentValues visible options.
Proof.
  intros Hpie Hheat.
  rewrite <- (erase_sourceData true true true true true (updateVisible _ _)).
  rewrite <- (erase_sourceData true true true true true (updatePercentValues _ _)).
  f_equal.
  destruct (unifies options) eqn:Hu.
  - rewrite updateVisible_unified by done.
    rewrite erase_updateSeriesText.
    destruct (Options.series_stacking options).
    + by rewrite erase_accumulate, erase_updateUnifiedXAxisValues.
    + unfold id. by rewrite erase_updateUnifiedXAxisValues.
  - rewrite updateVisible_plain by done.
    by rewrite erase_updateSeriesText.
Qed.

Lemma items_percent_series sums s :
  items (percent_series sums s) = percent_item sums <$> items s.
Proof.
  unfold items, percent_series. simpl.
  rewrite <- !list_fmap_compose. by apply list_fmap_ext.
Qed.

Lemma bind_items_percent sums (l : list Series.t) :
  (percent_series sums <$> l) ≫= items = percent_item sums <$> (l ≫= items).
Proof.
  induction l as [|s l IH]; [done|].
  by rewrite fmap_cons, !bind_cons, fmap_app, IH, items_percent_series.
Qed.

Lemma filter_x_percent sums x (ps : list Point.t) :
  filter (λ p, Point.x p = x) (percent_item sums <$> ps)
  = percent_item sums <$> filter (λ p, Point.x p = x) ps.
Proof.
  induction ps as [|p ps IH]; [done|].
  rewrite fmap_cons, !filter_cons. simpl.
  destruct (decide (Point.x p = x)); by rewrite IH.
Qed.

(** In percent mode the points of the result are the points of the
    input with their shares set. *)
Lemma points_at_updateData seriesList options x :
  percent_mode options →
  points_at x (visibleSeries (updateData seriesList options))
  = percent_item (sumOfCorrespondingPoints (visibleSeries seriesList))
      <$> points_at x (visibleSeries seriesList).
Proof.
  intros (Hp & Hpie & Hheat). unfold points_at.
  rewrite visibleSeries_updateData.
  rewrite (bind_items_sourceData _ _
             (updateVisible_sourceData _ _ Hpie Hheat)).
  unfold updatePercentValues. rewrite Hp.
  by rewrite bind_items_percent, filter_x_percent.
Qed.

(** For series keyed by x, the points at [x] are the points [Map.get]
    finds: one for every series that has a point at [x]. *)
Lemma filter_x_map_get x (data : list (value * Point.t)) :
  Forall (λ kv : value * Point.t, kv.1 = Point.x kv.2) data →
  NoDup (fst <$> data) →
  filter (λ p, Point.x p = x) (snd <$> data) = option_list (map_get x data).
Proof.
  induction data as [|[k p] data IH]; intros Hkeyed Hnodup; [done|].
  apply Forall_cons in Hkeyed as [Hk Hkeyed]. simpl in Hk. subst k.
  rewrite fmap_cons in Hnodup. apply NoDup_cons in Hnodup as [Hnotin Hnodup].
  rewrite fmap_cons, filter_cons. simpl.
  destruct (decide (Point.x p = x)) as [<-|Hne].
  - rewrite decide_True by done. simpl. f_equal.
    rewrite (IH Hkeyed Hnodup).
    destruct (map_get (Point.x p) data) as [q|] eqn:Hq; [|done].
    exfalso. apply Hnotin. clear -Hq.
    induction data as [|[k' q'] data IH]; [done|]. simpl in Hq.
    rewrite fmap_cons. simpl. destruct (decide (Point.x p = k')) as [->|].
    + apply list_elem_of_here.
    + apply list_elem_of_further. by apply IH.
  - rewrite decide_False by (intros ->; by apply Hne). by apply IH.
Qed.

Lemma points_at_map_get x seriesList :
  Forall (λ s, keyed_by_x s ∧ NoDup (keys s)) seriesList →
  points_at x seriesList
  = omap (λ s, map_get x (Series.sourceData s)) seriesList.
Proof.
  unfold points_at. induction 1 as [|s l [Hk Hn] _ IH]; [done|].
  rewrite bind_cons, filter_app, IH. unfold items at 1.
  rewrite (filter_x_map_get x _ Hk Hn). simpl.
  by destruct (map_get x (Series.sourceData s)).
Qed.

Lemma points_at_x x seriesList :
  Forall (λ p, Point.x p = x) (points_at x seriesList).
Proof.
  apply Forall_forall. intros p Hp.
  by apply list_elem_of_filter in Hp as [? _].
Qed.

End Percent.

Section PercentShares.
Context {imports : Imports}.

Lemma percent_of_finite sums p (s : Qc) :
  map_get (Point.x p) sums = Some (Fin s) →
  s ≠ Q2Qc 0 →
  Num.is_finite (Point.y p) = true →
  percent_of sums p = Fin (fin_part (Point.y p) / s * q100)%Qc.
Proof.
  intros Hget Hs Hp. unfold percent_of. rewrite Hget.
  rewrite (is_finite_Fin _ Hp). simpl.
  by rewrite bool_decide_eq_false_2.
Qed.






(** **** A zero sum *)

Lemma zero_divisor_not_finite (a : num) :
  Num.is_finite (Num.mul (Num.div a Num.zero) Num.hundred) = false.
Proof.
  destruct a as [q| | |]; try done. simpl. unfold Num.inf_of_sign.
  by repeat case_bool_decide.
Qed.

(** C9. In percent mode, when the sum of the absolute y values at an x
    is zero, the division is made all the same: the yPercent of every
    point at x is [y / 0 * 100], which is not finite ([NaN], or an
    infinity); the transform returns the whole series list. *)
Theorem zero_sum_not_finite (seriesList : list Series.t)
    (options : Options.t) (x : value) :
  let visible := visibleSeries seriesList in
  let sums := sumOfCorrespondingPoints visible in
  let after := points_at x (visibleSeries (updateData seriesList options)) in
  percent_mode options →
  (points_at x visible ≠ [] → abs_sum (points_at x visible) = Num.zero →
   map_get x sums = Some Num.zero)
  ∧ (map_get x sums = Some Num.zero →
     length after = length (points_at x visible)
     ∧ Forall (λ p, Point.yPercent p
                    = Some (Num.mul (Num.div (Point.y p) Num.zero) Num.hundred)
                    ∧ Num.is_finite (get_num (Point.yPercent p)) = false)
              after)
  ∧ length (updateData seriesList options) = length seriesList.
Proof.
  intros visible sums after Hmode. split; [|split].
  - intros Hne Hsum. unfold sums.
    rewrite sumOfCorrespondingPoints_get, foldl_sum_step_abs_sum; [by rewrite Hsum|..|done].
    assert (Hf : Num.is_finite (abs_sum (points_at x visible)) = true)
      by (by rewrite Hsum).
    apply foldl_add_finite_inv in Hf as [_ Hf].
    apply Forall_fmap in Hf. eapply Forall_impl; [exact Hf|].
    intros p. simpl. by destruct (Point.y p).
  - intros Hget. unfold after.
    rewrite (points_at_updateData _ _ _ Hmode). fold visible sums.
    split; [apply length_fmap|].
    apply Forall_fmap. eapply Forall_impl; [apply points_at_x|].
    intros p Hx. simpl. unfold percent_of. rewrite Hx, Hget. simpl.
    split; [done|apply zero_divisor_not_finite].
  - apply length_write_back.
Qed.

End PercentShares.

Section Text.
Context {imports : Imports}.

Lemma lookup_opt_token k k' o (text : gmap string value) :
  opt_token k o text !! k'
  = if decide (k = k') then
      match o with Some s => Some (VStr s) | None => text !! k' end
    else text !! k'.
Proof.
  unfold opt_token. destruct o as [s|].
  - rewrite lookup_insert. by destruct (decide (k = k')).
  - by destruct (decide (k = k')).
Qed.

Lemma tokens_lookup options series x item k :
  map_get x (Series.sourceData series) = Some item →
  Row.raw (Point.row item) !! k = None →
  tokens options series x !! k = point_tokens options series item !! k.
Proof.
  intros Hget Hraw. unfold tokens, extend. rewrite Hget.
  by apply lookup_union_r.
Qed.

Lemma raw_apart_lookup item k :
  raw_apart item → k ∈ token_names → Row.raw (Point.row item) !! k = None.
Proof. intros H Hk. unfold raw_apart in H. rewrite Forall_forall in H. auto. Qed.

Lemma updateSeriesText_text seriesList options n s :
  seriesList !! n = Some s →
  Series.text <$> updateSeriesText seriesList options !! n
  = Some ((λ x, createTextFormatter options (tokens options s x))
            <$> (if decide (is_pie options)
                 then Series.labels s else Series.x s)).
Proof.
  intros Hs. unfold updateSeriesText. rewrite list_lookup_fmap, Hs. done.
Qed.


End Text.

Section PercentToken.
Context {imports : Imports}.

Lemma abs_opt_negate (p : Point.t) :
  abs_opt (Point.yPercent (negate_yPercent p)) = abs_opt (Point.yPercent p).
Proof. simpl. destruct (Point.yPercent p); [apply abs_neg|done]. Qed.

Lemma point_tokens_negate options series item :
  point_tokens options (negate_shares series) (negate_yPercent item)
  = point_tokens options series item.
Proof. unfold point_tokens. by rewrite abs_opt_negate. Qed.

Lemma tokens_negate options series x :
  tokens options (negate_shares series) x = tokens options series x.
Proof.
  unfold tokens. simpl. rewrite map_get_fmap.
  destruct (map_get x (Series.sourceData series)) as [item|]; [|done].
  simpl. by rewrite point_tokens_negate.
Qed.

Lemma tokens_yPercent options series x item :
  Options.series_percentValues options = true ∨ is_pie options →
  map_get x (Series.sourceData series) = Some item →
  Row.raw (Point.row item) !! "@@yPercent" = None →
  tokens options series x !! "@@yPercent"
  = Some (VStr (createNumberFormatter (Options.percentFormat options)
                  (abs_opt (Point.yPercent item)))).
Proof.
  intros Hmode Hget Hraw.
  rewrite (tokens_lookup _ _ _ _ _ Hget Hraw). unfold point_tokens.
  assert (Options.series_percentValues options
          || bool_decide (Options.globalSeriesType options = "pie") = true)
    as ->.
  { destruct Hmode as [->|Hpie]; [done|].
    rewrite (bool_decide_eq_true_2 _ Hpie). apply orb_true_r. }
  by rewrite lookup_insert_eq.
Qed.


Lemma tokens_set_share_neg options series x (q : Qc) :
  tokens options (set_share (Some (Fin (- q)%Qc)) series) x
  = tokens options (set_share (Some (Fin q)) series) x.
Proof.
  unfold tokens, set_share. simpl. rewrite !map_get_fmap.
  destruct (map_get x (Series.sourceData series)) as [item|]; [|done].
  simpl. f_equal. unfold point_tokens. simpl. by rewrite Qcabs_opp.
Qed.

(** C10 (as amended). When percent mode is active
    ([series.percentValues], or the pie family), the [@@yPercent] token
    of a point whose row has no raw field of that name is the percent
    formatter applied to the absolute value of its yPercent (a raw field
    named [@@yPercent] replaces the token): [|q|] for a finite [q],
    [Infinity] for an infinite one, [NaN] for [NaN] or a missing one.
    Negating the yPercent of the points changes neither the token bags
    nor the text rendered from them. *)
Theorem percent_token_unsigned (options : Options.t) (series : Series.t)
    (x : value) (item : Point.t) :
  let formatPercent := createNumberFormatter (Options.percentFormat options) in
  let token := tokens options series x !! "@@yPercent" in
  Options.series_percentValues options = true ∨ is_pie options →
  map_get x (Series.sourceData series) = Some item →
  Row.raw (Point.row item) !! "@@yPercent" = None →
  (∀ q, Point.yPercent item = Some (Fin q) →
        token = Some (VStr (formatPercent (Fin (Qcabs q)))))
  ∧ (Point.yPercent item = Some PInf ∨ Point.yPercent item = Some NInf →
     token = Some (VStr (formatPercent PInf)))
  ∧ (Point.yPercent item = Some NaN ∨ Point.yPercent item = None →
     token = Some (VStr (formatPercent NaN)))
  ∧ (∀ q x', tokens options (set_share (Some (Fin (- q)%Qc)) series) x'
             = tokens options (set_share (Some (Fin q)) series) x')
  ∧ tokens options (negate_shares series) x = tokens options series x
  ∧ ∀ seriesList,
      Series.text <$> updateSeriesText (negate_shares <$> seriesList) options
      = Series.text <$> updateSeriesText seriesList options.
Proof.
  intros formatPercent token Hmode Hget Hraw.
  assert (Htoken : token
            = Some (VStr (formatPercent (abs_opt (Point.yPercent item)))))
    by (by apply tokens_yPercent).
  split; [|split; [|split; [|split; [|split]]]].
  - intros q Hq. by rewrite Htoken, Hq.
  - intros [Hq|Hq]; by rewrite Htoken, Hq.
  - intros [Hq|Hq]; by rewrite Htoken, Hq.
  - intros q x'. apply tokens_set_share_neg.
  - apply tokens_negate.
  - intros seriesList. unfold updateSeriesText.
    rewrite <- !list_fmap_compose. apply list_fmap_ext.
    intros _ s _. simpl. apply list_fmap_ext.
    intros _ x' _. by rewrite tokens_negate.
Qed.

(** A raw field of the row named like the token replaces it: the token
    is then the raw value, not the formatted share. *)
Lemma raw_field_replaces_percent :
  tokens (imports := Demo.imports) TextInputs.pie
    OverrideInputs.shadowed_series (VStr "a") !! "@@yPercent"
  = Some (VStr "raw")
  ∧ createNumberFormatter (Imports := Demo.imports)
      (Options.percentFormat TextInputs.pie)
      (abs_opt (Point.yPercent OverrideInputs.shadowed))
    = "30%".
Proof. split; vm_compute; reflexivity. Qed.

(** **** The pie family *)

Lemma fmap_write_back {A} (f : Series.t → A) seriesList visible :
  f <$> visible = f <$> visibleSeries seriesList →
  f <$> write_back seriesList visible = f <$> seriesList.
Proof.
  unfold visibleSeries. revert visible.
  induction seriesList as [|s l IH]; intros visible Heq; [done|].
  simpl. rewrite filter_cons in Heq.
  destruct (Series.visible s) eqn:Hs.
  - rewrite decide_True in Heq by done.
    destruct visible as [|v visible]; [done|].
    simpl in Heq. injection Heq as Hv Heq.
    rewrite !fmap_cons, Hv. f_equal. by apply IH.
  - rewrite decide_False in Heq by done.
    rewrite !fmap_cons. f_equal. by apply IH.
Qed.

Lemma updateSeriesText_frame {A} (f : Series.t → A) seriesList options :
  (∀ s t h, f (Series.set_hover h (Series.set_text t s)) = f s) →
  f <$> updateSeriesText seriesList options = f <$> seriesList.
Proof.
  intros Hf. unfold updateSeriesText.
  rewrite <- list_fmap_compose. apply list_fmap_ext.
  intros _ s _. simpl. apply Hf.
Qed.

(** The points of a pie series that come without yPercent still have
    none after the transform. *)
Lemma pie_percent_not_computed :
  Point.yPercent
    <$> (visibleSeries
           (updateData (imports := Demo.imports)
              PercentInputs.shares TextInputs.pie) ≫= items)
  = [None; None].
Proof. vm_compute. reflexivity. Qed.

Lemma tokens_yPercent_or_raw options series x item :
  Options.series_percentValues options = true ∨ is_pie options →
  map_get x (Series.sourceData series) = Some item →
  tokens options series x !! "@@yPercent"
  = Some (match Row.raw (Point.row item) !! "@@yPercent" with
          | Some v => v
          | None =>
              VStr (createNumberFormatter (Options.percentFormat options)
                      (abs_opt (Point.yPercent item)))
          end).
Proof.
  intros Hmode Hget.
  destruct (Row.raw (Point.row item) !! "@@yPercent") as [v|] eqn:Hraw.
  - unfold tokens, extend. rewrite Hget. by apply lookup_union_Some_l.
  - by apply tokens_yPercent.
Qed.

(** C2 (as amended). For the pie family the transform computes no
    yPercent: it leaves the points of every series (their yPercent
    included) and the x, y, errorY and labels arrays as they are, and
    rebuilds the text of the visible series over their labels; the
    [@@yPercent] token of a point found is rendered from the yPercent
    the point already has, whether [series.percentValues] is set or
    not, unless the row has a raw field named [@@yPercent], which then
    replaces the token. *)
Theorem pie_keeps_points (seriesList : list Series.t) (options : Options.t) :
  let formatPercent := createNumberFormatter (Options.percentFormat options) in
  is_pie options →
  Series.sourceData <$> updateData seriesList options
  = Series.sourceData <$> seriesList
  ∧ Series.x <$> updateData seriesList options = Series.x <$> seriesList
  ∧ Series.y <$> updateData seriesList options = Series.y <$> seriesList
  ∧ Series.error_y_array <$> updateData seriesList options
    = Series.error_y_array <$> seriesList
  ∧ Series.labels <$> updateData seriesList options
    = Series.labels <$> seriesList
  ∧ ∀ n s, visibleSeries seriesList !! n = Some s →
      Series.text <$> visibleSeries (updateData seriesList options) !! n
      = Some ((λ x, createTextFormatter options (tokens options s x))
                <$> Series.labels s)
      ∧ ∀ x item,
          map_get x (Series.sourceData s) = Some item →
          tokens options s x !! "@@yPercent"
          = Some (match Row.raw (Point.row item) !! "@@yPercent" with
                  | Some v => v
                  | None => VStr (formatPercent (abs_opt (Point.yPercent item)))
                  end).
Proof.
  intros formatPercent Hpie.
  assert (Hframe : ∀ {A} (f : Series.t → A),
            (∀ s t h, f (Series.set_hover h (Series.set_text t s)) = f s) →
            f <$> updateData seriesList options = f <$> seriesList).
  { intros A f Hf. unfold updateData. apply fmap_write_back.
    rewrite (updateVisible_pie _ _ Hpie). by apply updateSeriesText_frame. }
  repeat split; try (by apply Hframe).
  - rewrite visibleSeries_updateData, (updateVisible_pie _ _ Hpie).
    rewrite (updateSeriesText_text _ _ _ _ H).
    by rewrite decide_True.
  - intros x item Hget.
    apply tokens_yPercent_or_raw; [by right|done].
Qed.

End PercentToken.

(** ** The scenarios of the specification *)

Section Scenarios.
Import Demo.

(** A pie with the slices 30 and 70: the default text of the family. *)
Example scenario_pie_text :
  Series.text <$> updateData PieInputs.two_slices TextInputs.pie
  = [[VStr "30% (30)"]; [VStr "70% (70)"]].
Proof. vm_compute. reflexivity. Qed.

(** A sorted category axis: the domain is ["a"; "b"] for both series
    and the second series has [null] at ["b"]. *)
Example scenario_unified :
  (λ s, (Series.x s, Series.y s))
    <$> updateData StackInputs.ragged StackInputs.sorted_lines
  = [ ([VStr "a"; VStr "b"], [VNum (int 2); VNum (int 1)]);
      ([VStr "a"; VStr "b"], [VNum (int 3); VNull]) ].
Proof. by apply (bool_decide_unpack _). Qed.

(** Stacking [1; 2] under [3; 4] gives [4; 6]; the hidden series in
    between is left alone. *)
Example scenario_stacked :
  Series.y <$> updateData StackInputs.aligned StackInputs.stacked_lines
  = [ [VNum (int 1); VNum (int 2)];
      [VNum (int 9)];
      [VNum (int 4); VNum (int 6)] ].
Proof. by apply (bool_decide_unpack _). Qed.

(** A hidden series adds nothing to the percent sums and is returned
    as it came. *)
Example scenario_hidden :
  Series.y <$> updateData PercentInputs.shares Inputs.percent_columns
  = [ [VNum (int 30)]; [VNum (int 70)]; [VNum (int 5)] ]
  ∧ updateData PercentInputs.shares Inputs.percent_columns !! 2%nat
    = PercentInputs.shares !! 2%nat.
Proof. split; by apply (bool_decide_unpack _). Qed.

End Scenarios.

(** ** The dispatcher *)

Section Dispatch.
Context {imports : Imports}.

Lemma write_back_hidden seriesList visible n s :
  seriesList !! n = Some s →
  Series.visible s = false →
  write_back seriesList visible !! n = Some s.
Proof.
  revert visible n.
  induction seriesList as [|s0 l IH]; intros visible n Hs Hv; [done|].
  simpl. destruct n as [|n]; simpl in Hs.
  - injection Hs as ->. by rewrite Hv.
  - destruct (Series.visible s0); [destruct visible|]; simpl; by apply IH.
Qed.

Lemma write_back_visibleSeries seriesList :
  write_back seriesList (visibleSeries seriesList) = seriesList.
Proof.
  unfold visibleSeries. induction seriesList as [|s l IH]; [done|].
  simpl. rewrite filter_cons. destruct (Series.visible s) eqn:Hs.
  - rewrite decide_True by done. by rewrite IH.
  - rewrite decide_False by done. by rewrite IH.
Qed.

Lemma write_back_all_visible (seriesList visible : list Series.t) :
  Forall (λ s, Series.visible s = true) seriesList →
  length visible = length seriesList →
  write_back seriesList visible = visible.
Proof.
  intros Hall. revert visible.
  induction Hall as [|s l Hs _ IH]; intros [|v visible] Hlen; try done.
  simpl. rewrite Hs. f_equal. apply IH. simpl in Hlen. lia.
Qed.

Lemma visibleSeries_all_visible (seriesList : list Series.t) :
  Forall (λ s, Series.visible s = true) seriesList →
  visibleSeries seriesList = seriesList.
Proof. intros Hall. by apply filter_all. Qed.

(** X1. A series that is not visible is returned as it came, at its
    place; the list returned has the length of the list given. *)
Theorem hidden_series_untouched (seriesList : list Series.t)
    (options : Options.t) (n : nat) (s : Series.t) :
  seriesList !! n = Some s →
  Series.visible s = false →
  updateData seriesList options !! n = Some s
  ∧ length (updateData seriesList options) = length seriesList.
Proof.
  intros Hs Hv. split.
  - by apply write_back_hidden.
  - apply length_write_back.
Qed.

(** X2. The series that are not visible have no part in the result:
    the visible series of the result are what the transform returns for
    the visible series alone. *)
Theorem hidden_series_no_influence (seriesList : list Series.t)
    (options : Options.t) :
  visibleSeries (updateData seriesList options)
  = updateData (visibleSeries seriesList) options.
Proof.
  rewrite visibleSeries_updateData. unfold updateData.
  rewrite (visibleSeries_all_visible (visibleSeries seriesList))
    by apply visibleSeries_visible.
  symmetry. apply write_back_all_visible.
  - apply visibleSeries_visible.
  - apply length_updateVisible.
Qed.

Lemma updateVisible_heatmap visible options :
  is_heatmap options → updateVisible visible options = visible.
Proof.
  intros Hh. unfold updateVisible, is_heatmap in *. rewrite Hh.
  by case_bool_decide.
Qed.

(** X3. For the heatmap family the transform changes nothing, whatever
    the other options. *)
Theorem heatmap_untouched (seriesList : list Series.t) (options : Options.t) :
  is_heatmap options →
  updateData seriesList options = seriesList.
Proof.
  intros Hh. unfold updateData. rewrite (updateVisible_heatmap _ _ Hh).
  apply write_back_visibleSeries.
Qed.

(** Every pipeline but the one of heatmap ends with the text pass. *)
Lemma updateVisible_ends_with_text visible options :
  ¬ is_heatmap options →
  ∃ before, updateVisible visible options = updateSeriesText before options.
Proof.
  intros Hh. destruct (decide (is_pie options)) as [Hp|Hp].
  - eexists. by apply updateVisible_pie.
  - destruct (unifies options) eqn:Hu.
    + eexists. by apply updateVisible_unified.
    + eexists. by apply updateVisible_plain.
Qed.

(** X4. Outside the heatmap family, the hover array of every visible
    series is empty after the transform: it is reset and never filled. *)
Theorem hover_left_empty (seriesList : list Series.t) (options : Options.t)
    (s : Series.t) :
  ¬ is_heatmap options →
  s ∈ visibleSeries (updateData seriesList options) →
  Series.hover s = [].
Proof.
  intros Hh Hs. rewrite visibleSeries_updateData in Hs.
  destruct (updateVisible_ends_with_text (visibleSeries seriesList) options Hh)
    as [before Hbefore].
  rewrite Hbefore in Hs. apply list_elem_of_lookup_1 in Hs as [n Hn].
  by apply updateSeriesText_lookup in Hn as (? & _ & _ & _ & _ & _ & _ & ? & _).
Qed.

Lemma series_frame_erase m s :
  series_frame (erase_series m s) = series_frame s.
Proof.
  unfold series_frame, erase_series; simpl. f_equal.
  unfold erase_points. destruct (m_percent m); [|done].
  rewrite <- list_fmap_compose. by apply list_fmap_ext.
Qed.

Lemma fmap_series_frame_erase m seriesList :
  series_frame <$> erase m seriesList = series_frame <$> seriesList.
Proof.
  unfold erase. rewrite <- list_fmap_compose. apply list_fmap_ext.
  intros _ s _. apply series_frame_erase.
Qed.

(** X5. The transform never changes the name, the visibility, the y
    axis or the labels of a series, never adds, drops or reorders the
    points of its [sourceData], and never changes the x, y, yError, size
    or row of a point: of a point it writes the yPercent only. *)
Theorem frame_preserved (seriesList : list Series.t) (options : Options.t) :
  series_frame <$> updateData seriesList options
  = series_frame <$> seriesList.
Proof.
  unfold updateData. apply fmap_write_back.
  rewrite <- (fmap_series_frame_erase (writes options)), erase_updateVisible.
  apply fmap_series_frame_erase.
Qed.

Lemma updatePercentValues_frame {A} (f : Series.t → A) seriesList options :
  (∀ s d v, f (Series.set_y v (Series.set_sourceData d s)) = f s) →
  f <$> updatePercentValues seriesList options = f <$> seriesList.
Proof.
  intros Hf. unfold updatePercentValues.
  destruct (Options.series_percentValues options); [|done].
  rewrite <- list_fmap_compose. apply list_fmap_ext.
  intros _ s _. simpl. apply Hf.
Qed.

(** X6. Outside percent mode the points are returned as they came,
    their yPercent included: the transform writes yPercent only when
    [series.percentValues] is set and the family is neither pie nor
    heatmap. *)
Theorem points_kept_without_percent (seriesList : list Series.t)
    (options : Options.t) :
  ¬ percent_mode options →
  Series.sourceData <$> updateData seriesList options
  = Series.sourceData <$> seriesList.
Proof.
  intros Hmode. unfold updateData. apply fmap_write_back.
  destruct (decide (is_heatmap options)) as [Hh|Hh].
  { by rewrite updateVisible_heatmap. }
  destruct (decide (is_pie options)) as [Hp|Hp].
  { rewrite updateVisible_pie by done. by apply updateSeriesText_frame. }
  rewrite updateVisible_sourceData by done.
  rewrite updatePercentValues_off; [done|].
  destruct (Options.series_percentValues options) eqn:Hpv; [|done].
  destruct Hmode. by repeat split.
Qed.

(** X7. When the x axis is not unified, the x and errorY arrays of every
    series are returned as they came, and so is the y array outside
    percent mode.  This covers the families other than line and area
    with stacking: they are never unified nor accumulated. *)
Theorem arrays_kept_without_unification (seriesList : list Series.t)
    (options : Options.t) :
  ¬ unification_runs options →
  Series.x <$> updateData seriesList options = Series.x <$> seriesList
  ∧ Series.error_y_array <$> updateData seriesList options
    = Series.error_y_array <$> seriesList
  ∧ (¬ percent_mode options →
     Series.y <$> updateData seriesList options = Series.y <$> seriesList).
Proof.
  intros Hrun.
  assert (Hframe : ∀ {A} (f : Series.t → A),
            (∀ s t h, f (Series.set_hover h (Series.set_text t s)) = f s) →
            ((∀ s d v, f (Series.set_y v (Series.set_sourceData d s)) = f s)
             ∨ ¬ percent_mode options) →
            f <$> updateData seriesList options = f <$> seriesList).
  { intros A f Hf Hp. unfold updateData. apply fmap_write_back.
    destruct (decide (is_heatmap options)) as [Hh|Hh].
    { by rewrite updateVisible_heatmap. }
    destruct (decide (is_pie options)) as [Hpie|Hpie].
    { rewrite updateVisible_pie by done. by apply updateSeriesText_frame. }
    destruct (unifies options) eqn:Hu.
    { destruct Hrun. by repeat split. }
    rewrite updateVisible_plain by done.
    rewrite updateSeriesText_frame by done.
    destruct Hp as [Hp|Hp].
    - by apply updatePercentValues_frame.
    - rewrite updatePercentValues_off; [done|].
      destruct (Options.series_percentValues options) eqn:Hpv; [|done].
      destruct Hp. by repeat split. }
  split; [apply Hframe; [done|by left]|].
  split; [apply Hframe; [done|by left]|].
  intros Hp. apply Hframe; [done|by right].
Qed.

End Dispatch.

(** ** More on the percent pass *)

Section PercentPass.
Context {imports : Imports}.

(** X8. In percent mode without unification, the y array of every
    visible series lists the yPercent of its points in the order of its
    [sourceData], one entry per point, and every point has a yPercent. *)
Theorem percent_y_array (seriesList : list Series.t) (options : Options.t)
    (s : Series.t) :
  percent_mode options →
  unifies options = false →
  s ∈ visibleSeries (updateData seriesList options) →
  Series.y s = (λ p, of_opt (Point.yPercent p)) <$> items s
  ∧ Forall (λ p, is_Some (Point.yPercent p)) (items s).
Proof.
  intros (Hp & Hpie & Hheat) Hu Hs.
  rewrite visibleSeries_updateData, updateVisible_plain in Hs by done.
  apply list_elem_of_lookup_1 in Hs as [n Hn].
  apply updateSeriesText_lookup in Hn
    as (s1 & Hs1 & _ & Hy & _ & _ & Hd & _ & _).
  apply updatePercentValues_lookup in Hs1 as (s0 & _ & _ & _ & _ & Heq).
  rewrite Hp in Heq. unfold items. rewrite Hy, Hd, Heq. simpl.
  split.
  - by rewrite <- !list_fmap_compose.
  - rewrite <- list_fmap_compose. apply Forall_fmap, Forall_forall.
    intros kv _. simpl. by eexists.
Qed.

Lemma keys_map_set {V} (k : value) (v : V) (m : list (value * V)) :
  fst <$> map_set k v m = set_add k (fst <$> m).
Proof.
  unfold set_add. induction m as [|[k' v'] m IH].
  - simpl. destruct (decide (k ∈ [])) as [Hin|_]; [|done].
    by apply elem_of_nil in Hin.
  - rewrite fmap_cons. simpl. destruct (decide (k = k')) as [->|Hne].
    + destruct (decide (k' ∈ k' :: (fst <$> m))) as [_|Hn]; [done|].
      destruct Hn. apply list_elem_of_here.
    + rewrite fmap_cons, IH. simpl.
      destruct (decide (k ∈ fst <$> m)) as [Hin|Hin],
               (decide (k ∈ k' :: (fst <$> m))) as [Hin'|Hin']; try done.
      * destruct Hin'. by apply list_elem_of_further.
      * apply elem_of_cons in Hin' as [?|?]; done.
Qed.

Lemma keys_foldl_add_point (sums : list (value * num)) (ps : list Point.t) :
  fst <$> foldl add_point sums ps
  = foldl (λ set item, set_add (Point.x item) set) (fst <$> sums) ps.
Proof.
  revert sums. induction ps as [|p ps IH]; intros sums; simpl; [done|].
  rewrite IH. unfold add_point. by rewrite keys_map_set.
Qed.

Lemma map_get_is_Some {V} (k : value) (m : list (value * V)) :
  k ∈ fst <$> m → is_Some (map_get k m).
Proof.
  induction m as [|[k' v'] m IH]; simpl.
  - by intros ?%elem_of_nil.
  - intros Hin. destruct (decide (k = k')); [by eexists|].
    apply IH. apply elem_of_cons in Hin as [?|?]; done.
Qed.

(** X9. The sums of the percent pass are keyed by the unified x domain,
    in its first-seen order; so the sum looked up for a point in the
    second loop is always there. *)
Theorem sums_keyed_by_domain (seriesList : list Series.t) :
  fst <$> sumOfCorrespondingPoints seriesList
  = getUnifiedXAxisValues seriesList false
  ∧ Forall (λ p, is_Some (map_get (Point.x p)
                            (sumOfCorrespondingPoints seriesList)))
      (seriesList ≫= items).
Proof.
  assert (Hkeys : fst <$> sumOfCorrespondingPoints seriesList
                  = getUnifiedXAxisValues seriesList false).
  { rewrite sumOfCorrespondingPoints_flat, getUnifiedXAxisValues_flat.
    apply keys_foldl_add_point. }
  split; [done|]. apply Forall_forall. intros p Hp. apply map_get_is_Some.
  rewrite Hkeys, getUnifiedXAxisValues_unsorted, first_seen_elem_of.
  apply list_elem_of_fmap. by exists p.
Qed.

Lemma foldl_Qcplus_le (a : Qc) (l : list Qc) :
  Forall (λ q, 0 ≤ q)%Qc l → (a ≤ foldl Qcplus a l)%Qc.
Proof.
  revert a. induction l as [|b l IH]; intros a Hl; simpl.
  - apply Qcle_refl.
  - apply Forall_cons in Hl as [Hb Hl].
    apply Qcle_trans with (a + b)%Qc; [|by apply IH].
    rewrite <- (Qcplus_0_r a) at 1.
    apply Qcplus_le_compat; [apply Qcle_refl|done].
Qed.

Lemma elem_le_foldl_Qcplus (a q : Qc) (l : list Qc) :
  (0 ≤ a)%Qc → Forall (λ q, 0 ≤ q)%Qc l → q ∈ l →
  (q ≤ foldl Qcplus a l)%Qc.
Proof.
  revert a. induction l as [|b l IH]; intros a Ha Hl Hq; simpl.
  - by apply elem_of_nil in Hq.
  - apply Forall_cons in Hl as [Hb Hl].
    apply elem_of_cons in Hq as [->|Hq].
    + apply Qcle_trans with (a + b)%Qc; [|by apply foldl_Qcplus_le].
      rewrite <- (Qcplus_0_l b) at 1.
      apply Qcplus_le_compat; [done|apply Qcle_refl].
    + apply IH; [by apply Qc_sum_nonneg|done..].
Qed.

(** A share is at most 100 in absolute value. *)
Lemma share_le_100 (q s : Qc) :
  s ≠ Q2Qc 0 → (0 ≤ s)%Qc → (Qcabs q ≤ s)%Qc →
  (Qcabs (q / s * q100) ≤ q100)%Qc.
Proof.
  intros Hs Hs0 Hq.
  set (c := Qcabs (q100 / s)%Qc).
  assert (Hsc : (s * c)%Qc = q100).
  { rewrite <- (Qcabs_pos s Hs0) at 1. unfold c. rewrite <- Qcabs_Qcmult.
    replace (s * (q100 / s))%Qc with q100 by (by field).
    apply Qcabs_pos, q100_nonneg. }
  replace (q / s * q100)%Qc with (q * (q100 / s))%Qc by (by field).
  rewrite Qcabs_Qcmult. fold c. rewrite <- Hsc.
  apply Qcmult_le_compat_r; [done|apply Qcabs_nonneg].
Qed.

(** X10. In percent mode, at an x whose y values are finite and whose
    sum of absolute y values is not zero, the yPercent of every point is
    a finite number between -100 and 100. *)
Theorem share_bounds (seriesList : list Series.t) (options : Options.t)
    (x : value) :
  let before := points_at x (visibleSeries seriesList) in
  let after := points_at x (visibleSeries (updateData seriesList options)) in
  percent_mode options →
  Forall (λ p, Num.is_finite (Point.y p) = true) before →
  abs_sum before ≠ Num.zero →
  Forall (λ p, ∃ r, Point.yPercent p = Some (Fin r)
                    ∧ (Qcabs r ≤ q100)%Qc) after.
Proof.
  intros before after Hmode Hfin Hsum.
  unfold after. rewrite (points_at_updateData _ _ _ Hmode). fold before.
  set (sums := sumOfCorrespondingPoints (visibleSeries seriesList)).
  set (qs := (λ p, fin_part (Point.y p)) <$> before).
  set (s := foldl Qcplus (Q2Qc 0) (Qcabs <$> qs)).
  assert (Habs : abs_sum before = Fin s) by (by apply abs_sum_Fin).
  assert (Hs : s ≠ Q2Qc 0).
  { intros Hs. apply Hsum. by rewrite Habs, Hs. }
  assert (Hs0 : (0 ≤ s)%Qc).
  { apply foldl_Qcplus_nonneg; [apply Qcle_refl|apply Forall_Qcabs_nonneg]. }
  assert (Hne : before ≠ []).
  { intros Hnil. apply Hsum. by rewrite Hnil. }
  assert (Hget : map_get x sums = Some (Fin s)).
  { unfold sums. rewrite sumOfCorrespondingPoints_get. fold before.
    by rewrite foldl_sum_step_abs_sum, Habs. }
  apply Forall_fmap, Forall_forall. intros p Hp. simpl.
  assert (Hx : Point.x p = x).
  { unfold before, points_at in Hp.
    by apply list_elem_of_filter in Hp as [? _]. }
  assert (Hpf : Num.is_finite (Point.y p) = true).
  { rewrite Forall_forall in Hfin. by apply Hfin. }
  exists (fin_part (Point.y p) / s * q100)%Qc. split.
  - f_equal. apply percent_of_finite; [by rewrite Hx|done..].
  - apply share_le_100; [done..|].
    apply elem_le_foldl_Qcplus;
      [apply Qcle_refl|apply Forall_Qcabs_nonneg|].
    unfold qs. rewrite <- list_fmap_compose.
    apply list_elem_of_fmap. by exists p.
Qed.




End PercentPass.

(** ** More on stacking and on the unified x axis *)

Section StackingSteps.
Context {imports : Imports}.




Lemma lookup_fmap_y (l : list Series.t) n s :
  l !! n = Some s → (Series.y <$> l) !! n = Some (Series.y s).
Proof. intros H. by rewrite list_lookup_fmap, H. Qed.



Lemma getUnifiedXAxisValues_elem seriesList sorted x :
  x ∈ getUnifiedXAxisValues seriesList sorted
  ↔ x ∈ Point.x <$> (seriesList ≫= items).
Proof.
  assert (H : x ∈ getUnifiedXAxisValues seriesList false
              ↔ x ∈ Point.x <$> (seriesList ≫= items)).
  { rewrite getUnifiedXAxisValues_unsorted. apply first_seen_elem_of. }
  destruct sorted; [|done]. rewrite <- H.
  unfold getUnifiedXAxisValues.
  by rewrite sortBy_Permutation.
Qed.

Lemma getUnifiedXAxisValues_NoDup seriesList sorted :
  NoDup (getUnifiedXAxisValues seriesList sorted).
Proof.
  assert (H : NoDup (getUnifiedXAxisValues seriesList false)).
  { rewrite getUnifiedXAxisValues_unsorted. apply first_seen_NoDup. }
  destruct sorted; [|done].
  unfold getUnifiedXAxisValues in *.
  by rewrite sortBy_Permutation.
Qed.

Lemma map_get_elem_of {V} (k : value) (v : V) (m : list (value * V)) :
  NoDup (fst <$> m) → (k, v) ∈ m → map_get k m = Some v.
Proof.
  induction m as [|[k' v'] m IH]; intros Hnd Hin.
  - by apply elem_of_nil in Hin.
  - rewrite fmap_cons in Hnd. apply NoDup_cons in Hnd as [Hk' Hnd].
    simpl in *. apply elem_of_cons in Hin as [Heq|Hin].
    + injection Heq as -> ->. by rewrite decide_True.
    + destruct (decide (k = k')) as [->|Hne]; [|by apply IH].
      destruct Hk'. apply list_elem_of_fmap. by exists (k', v).
Qed.

(** X13. Unifying the x axis loses no point and repeats none: for a
    series whose points sit under their own x, every point of its
    [sourceData] is found at exactly one index of the rebuilt arrays,
    with its x, its y (its yPercent when [series.percentValues] is set)
    and its yError. *)
Theorem unified_arrays_keep_points (seriesList : list Series.t)
    (options : Options.t) (defaultY : option value) (n : nat)
    (s s' : Series.t) (k : value) (item : Point.t) :
  seriesList !! n = Some s →
  updateUnifiedXAxisValues seriesList options defaultY !! n = Some s' →
  keyed_by_x s →
  NoDup (keys s) →
  (k, item) ∈ Series.sourceData s →
  ∃ i, Series.x s' !! i = Some k
    ∧ Series.y s' !! i
      = Some (if Options.series_percentValues options
              then of_opt (Point.yPercent item) else VNum (Point.y item))
    ∧ Series.error_y_array s' !! i = Some (of_opt (Point.yError item))
    ∧ ∀ j, Series.x s' !! j = Some k → j = i.
Proof.
  intros Hs Hs' Hkeyed Hnd Hin.
  apply updateUnifiedXAxisValues_lookup in Hs' as (s0 & Hs0 & ->).
  rewrite Hs in Hs0. injection Hs0 as <-.
  set (domain := getUnifiedXAxisValues seriesList (Options.sortX options)).
  assert (Hk : k ∈ domain).
  { apply getUnifiedXAxisValues_elem.
    unfold keyed_by_x in Hkeyed. rewrite Forall_forall in Hkeyed.
    specialize (Hkeyed _ Hin). simpl in Hkeyed.
    apply list_elem_of_fmap. exists item. split; [done|].
    apply list_elem_of_bind. exists s. split.
    - unfold items. apply list_elem_of_fmap. by exists (k, item).
    - by eapply list_elem_of_lookup_2. }
  apply list_elem_of_lookup_1 in Hk as [i Hi].
  assert (Hget : map_get k (Series.sourceData s) = Some item)
    by (by apply map_get_elem_of).
  exists i. unfold unify_series; simpl. fold domain.
  rewrite !list_lookup_fmap, Hi. simpl.
  unfold unified_y, unified_error. rewrite Hget.
  repeat split; try done.
  intros j Hj. eapply NoDup_lookup; [|exact Hj|exact Hi].
  apply getUnifiedXAxisValues_NoDup.
Qed.

End StackingSteps.

(** ** More on the text labels *)

Section Labels.
Context {imports : Imports}.

(** The tokens of a point found, when the raw fields leave their names
    alone. *)
Lemma tokens_of_point options series x item :
  map_get x (Series.sourceData series) = Some item →
  raw_apart item →
  let formatNumber := createNumberFormatter (Options.numberFormat options) in
  let formatPercent := createNumberFormatter (Options.percentFormat options) in
  let bag := tokens options series x in
  prop bag "@@y"
  = (if yValueIsAny options series
     then formatValue (Row.y (Point.row item)) (Series.yaxis series) options
     else VStr (formatNumber (Point.y item)))
  ∧ prop bag "@@yError"
    = match Point.yError item with
      | Some e => VStr (formatNumber e) | None => VUndef end
  ∧ prop bag "@@size"
    = match Point.size item with
      | Some z => VStr (formatNumber z) | None => VUndef end
  ∧ prop bag "@@yPercent"
    = (if Options.series_percentValues options || bool_decide (is_pie options)
       then VStr (formatPercent (abs_opt (Point.yPercent item)))
       else VUndef).
Proof.
  intros Hget Hraw formatNumber formatPercent bag.
  assert (Hbag : ∀ k, k ∈ token_names →
            prop bag k = prop (point_tokens options series item) k).
  { intros k Hk. unfold prop, bag.
    by rewrite (tokens_lookup _ _ _ _ _ Hget (raw_apart_lookup _ _ Hraw Hk)). }
  unfold token_names in Hbag. unfold is_pie.
  repeat split.
  - rewrite Hbag by set_solver. unfold prop, point_tokens, yValueIsAny.
    destruct (_ || _); rewrite ?lookup_insert, !lookup_opt_token; simpl;
      by rewrite !lookup_insert.
  - rewrite Hbag by set_solver. unfold prop, point_tokens.
    destruct (_ || _); rewrite ?lookup_insert, !lookup_opt_token; simpl;
      destruct (Point.yError item); simpl; by rewrite ?lookup_insert.
  - rewrite Hbag by set_solver. unfold prop, point_tokens.
    destruct (_ || _); rewrite ?lookup_insert, !lookup_opt_token; simpl;
      destruct (Point.size item); simpl;
      rewrite ?lookup_opt_token; simpl;
      destruct (Point.yError item); simpl; by rewrite ?lookup_insert.
  - rewrite Hbag by set_solver. unfold prop, point_tokens.
    destruct (_ || _); rewrite ?lookup_insert, ?lookup_opt_token; simpl;
      [done|]. by rewrite !lookup_insert.
Qed.

(** X14. With the default template, outside the pie family, the label
    of a point of a series that is neither bubble nor scatter is its
    formatted y, followed by [" ± "] and the formatted yError when there
    is one, wrapped as [yPercent (..)] when [series.percentValues] is
    set, and followed by [": "] and the formatted size when there is
    one, in that order. *)
Theorem default_label_of_point (options : Options.t) (series : Series.t)
    (x : value) (item : Point.t) :
  Options.textFormat options = "" →
  ¬ is_pie options →
  yValueIsAny options series = false →
  map_get x (Series.sourceData series) = Some item →
  raw_apart item →
  createTextFormatter options (tokens options series x)
  = VStr (default_label options item).
Proof.
  intros Hfmt Hpie Hany Hget Hraw.
  destruct (tokens_of_point options series x item Hget Hraw)
    as (Hy & He & Hz & Hp).
  rewrite Hany in Hy. rewrite (bool_decide_eq_false_2 _ Hpie) in Hp.
  rewrite orb_false_r in Hp.
  unfold createTextFormatter. rewrite decide_True, decide_False by done.
  unfold defaultFormatSeriesText, default_label.
  rewrite Hy, He, Hz, Hp.
  destruct (Point.yError item), (Point.size item),
           (Options.series_percentValues options); simpl; done.
Qed.

(** X15. With the default template, the label of a point of a pie (of a
    series that is neither bubble nor scatter) is the formatted absolute
    yPercent followed by the formatted y in brackets; yError and size
    are not shown. *)
Theorem pie_label_of_point (options : Options.t) (series : Series.t)
    (x : value) (item : Point.t) :
  Options.textFormat options = "" →
  is_pie options →
  yValueIsAny options series = false →
  map_get x (Series.sourceData series) = Some item →
  raw_apart item →
  createTextFormatter options (tokens options series x)
  = VStr (pie_label options item).
Proof.
  intros Hfmt Hpie Hany Hget Hraw.
  destruct (tokens_of_point options series x item Hget Hraw)
    as (Hy & _ & _ & Hp).
  rewrite Hany in Hy. rewrite (bool_decide_eq_true_2 _ Hpie) in Hp.
  rewrite orb_true_r in Hp.
  unfold createTextFormatter. rewrite !decide_True by done.
  unfold defaultFormatSeriesTextForPie, pie_label.
  by rewrite Hy, Hp.
Qed.

(** X16. At an x where the series has no point, the token bag holds the
    name of the series only: the default label is [undefined], for a pie
    the string ["undefined (undefined)"], and a template of the user is
    expanded against that bag. *)
Theorem label_without_point (options : Options.t) (series : Series.t)
    (x : value) :
  map_get x (Series.sourceData series) = None →
  tokens options series x = {[ "@@name" := VStr (Series.name series) ]}
  ∧ createTextFormatter options (tokens options series x)
    = if decide (Options.textFormat options = "")
      then if decide (is_pie options)
           then VStr "undefined (undefined)" else VUndef
      else VStr (formatSimpleTemplate (Options.textFormat options)
                   {[ "@@name" := VStr (Series.name series) ]}).
Proof.
  intros Hget.
  assert (Hbag : tokens options series x
                 = {[ "@@name" := VStr (Series.name series) ]}).
  { unfold tokens. by rewrite Hget. }
  split; [done|]. rewrite Hbag. unfold createTextFormatter, is_pie.
  destruct (decide (Options.textFormat options = "")); [|done].
  destruct (decide (Options.globalSeriesType options = "pie")); done.
Qed.

(** X17. Every raw field of the row of a point is in the token bag
    under its own name, and wins over a token of the same name. *)
Theorem raw_fields_in_bag (options : Options.t) (series : Series.t)
    (x : value) (item : Point.t) (k : string) (v : value) :
  map_get x (Series.sourceData series) = Some item →
  Row.raw (Point.row item) !! k = Some v →
  tokens options series x !! k = Some v.
Proof.
  intros Hget Hraw. unfold tokens, extend. rewrite Hget.
  by apply lookup_union_Some_l.
Qed.


Lemma tokens_line_area o series x :
  tokens (with_type "line" o) series x = tokens (with_type "area" o) series x.
Proof.
  unfold tokens. destruct (map_get x (Series.sourceData series)); [|done].
  f_equal. unfold point_tokens, seriesType, formatValue. simpl.
  destruct (Options.seriesOptions o !! Series.name series); [done|].
  by destruct (decide (Series.name series ∈ object_prototype_names)).
Qed.

Lemma updateSeriesText_line_area o seriesList :
  updateSeriesText seriesList (with_type "line" o)
  = updateSeriesText seriesList (with_type "area" o).
Proof.
  unfold updateSeriesText. apply list_fmap_ext. intros _ s _. simpl.
  do 2 f_equal. apply list_fmap_ext. intros _ x _.
  by rewrite tokens_line_area.
Qed.

(** X19. The transform does not tell line from area: with options that
    differ in that family only, it returns the same series, text
    included. *)
Theorem line_area_alike (seriesList : list Series.t) (o : Options.t) :
  updateData seriesList (with_type "line" o)
  = updateData seriesList (with_type "area" o).
Proof.
  unfold updateData. f_equal. unfold updateVisible. simpl.
  case_bool_decide; [|done].
  unfold updateLineAreaData, updatePercentValues, updateUnifiedXAxisValues,
    useUnifiedXAxis. simpl.
  apply updateSeriesText_line_area.
Qed.

Lemma tokens_pie_flags p s x o series v :
  is_pie o →
  tokens (with_flags p s x o) series v = tokens o series v.
Proof.
  intros Hpie. unfold tokens.
  destruct (map_get v (Series.sourceData series)); [|done].
  f_equal. unfold point_tokens, is_pie in *. simpl.
  rewrite (bool_decide_eq_true_2 _ Hpie), !orb_true_r. done.
Qed.

(** X20. For the pie family the flags [series.percentValues],
    [series.stacking] and [sortX] make no difference: the transform
    returns the same series whatever they are. *)
Theorem pie_ignores_flags (seriesList : list Series.t) (o : Options.t)
    (percentValues stacking sortX : bool) :
  is_pie o →
  updateData seriesList (with_flags percentValues stacking sortX o)
  = updateData seriesList o.
Proof.
  intros Hpie. unfold updateData. f_equal.
  rewrite !updateVisible_pie by done.
  unfold updateSeriesText. apply list_fmap_ext. intros _ series _. simpl.
  do 2 f_equal. apply list_fmap_ext. intros _ v _.
  by rewrite tokens_pie_flags.
Qed.

End Labels.

(** ** Names inherited from [Object.prototype] *)

Section InheritedNames.
Import Demo.

(** A series named like a property every object inherits is not taken
    for a scatter series under the global type scatter: the lookup in
    [seriesOptions] finds the inherited function, which has no type, and
    the [@@y] token is the formatted number. *)
Example inherited_name_is_no_scatter :
  tokens TextInputs.scatter
    (Series.mk "constructor" true "y" [(VStr "a", TextInputs.priced)]
               [VStr "a"] [] [] [] [] [])
    (VStr "a") !! "@@y"
  = Some (VStr "7").
Proof. vm_compute. reflexivity. Qed.

End InheritedNames.

(** ** The properties at work on the examples *)

Section Witnesses.
Import Demo.

Lemma ragged_comparable :
  comparable (getUnifiedXAxisValues (visibleSeries StackInputs.ragged) false).
Proof.
  assert (Hd : getUnifiedXAxisValues (visibleSeries StackInputs.ragged) false
               = [VStr "b"; VStr "a"]) by reflexivity.
  rewrite Hd. split.
  - intros a b Ha Hb.
    rewrite !elem_of_cons, elem_of_nil in Ha, Hb.
    destruct Ha as [->|[->|[]]], Hb as [->|[->|[]]];
      vm_compute; intros H1 H2; discriminate.
  - intros a b c Ha Hb Hc.
    rewrite !elem_of_cons, elem_of_nil in Ha, Hb, Hc.
    destruct Ha as [->|[->|[]]], Hb as [->|[->|[]]], Hc as [->|[->|[]]];
      vm_compute; intros H1 H2 H3; try discriminate;
      first [by apply H1|by apply H2].
Defined.


Lemma pie_keeps_points_witness :
  is_pie TextInputs.pie
  ∧ Series.sourceData <$> updateData PercentInputs.shares TextInputs.pie
    = Series.sourceData <$> PercentInputs.shares.
Proof.
  assert (H1 : is_pie TextInputs.pie) by reflexivity.
  split; [exact H1|].
  exact (proj1 (pie_keeps_points PercentInputs.shares TextInputs.pie H1)).
Defined.


Lemma unified_x_domain_witness :
  Forall keyed_by_x (visibleSeries StackInputs.ragged)
  ∧ comparable (getUnifiedXAxisValues (visibleSeries StackInputs.ragged) false)
  ∧ getUnifiedXAxisValues (visibleSeries StackInputs.ragged) false
    = first_seen (visibleSeries StackInputs.ragged ≫= keys)
  ∧ StronglySorted sort_leq
      (getUnifiedXAxisValues (visibleSeries StackInputs.ragged) true).
Proof.
  assert (H1 : Forall keyed_by_x (visibleSeries StackInputs.ragged)).
  { vm_compute. repeat constructor. }
  split; [exact H1|]. split; [exact ragged_comparable|].
  split.
  - exact (proj1 (unified_x_domain StackInputs.ragged H1)).
  - exact (proj1 (proj2 (proj2 (proj2 (proj2
             (unified_x_domain StackInputs.ragged H1)))) ragged_comparable)).
Defined.

Lemma unified_axis_fill_witness :
  unification_runs StackInputs.sorted_lines
  ∧ updateVisible (visibleSeries StackInputs.ragged) StackInputs.sorted_lines
    = updateSeriesText
        (updateUnifiedXAxisValues
           (updatePercentValues (visibleSeries StackInputs.ragged)
              StackInputs.sorted_lines)
           StackInputs.sorted_lines None)
        StackInputs.sorted_lines.
Proof.
  assert (H1 : unification_runs StackInputs.sorted_lines).
  { split; [intros H; discriminate H|].
    split; [intros H; discriminate H|reflexivity]. }
  split; [exact H1|].
  exact (proj1 (unified_axis_fill (visibleSeries StackInputs.ragged)
                  StackInputs.sorted_lines H1)).
Defined.

Lemma output_lengths_witness :
  ∃ s',
    visibleSeries
      (updateData StackInputs.ragged StackInputs.sorted_lines) !! 1%nat
    = Some s'
    ∧ length (Series.text s') = length (Series.x s')
    ∧ length (Series.y s') = length (Series.x s').
Proof.
  eexists. split; [vm_compute; reflexivity|].
  refine (match output_lengths StackInputs.ragged StackInputs.sorted_lines
                  1 _ _ with
          | ex_intro _ s (conj _ (conj _ H)) => _
          end).
  - vm_compute. reflexivity.
  - destruct H as (Ht & Hu & _).
    + intros Hp; discriminate Hp.
    + intros Hh; discriminate Hh.
    + destruct (Hu eq_refl) as (Hx & Hy & _).
      split; [exact Ht|]. by rewrite Hx, Hy.
Defined.


Lemma zero_sum_not_finite_witness :
  percent_mode Inputs.percent_columns
  ∧ points_at (VStr "a") (visibleSeries PercentInputs.zeros) ≠ []
  ∧ abs_sum (points_at (VStr "a") (visibleSeries PercentInputs.zeros))
    = Num.zero
  ∧ Forall (λ p, Point.yPercent p
                 = Some (Num.mul (Num.div (Point.y p) Num.zero) Num.hundred)
                 ∧ Num.is_finite (get_num (Point.yPercent p)) = false)
      (points_at (VStr "a")
         (visibleSeries
            (updateData PercentInputs.zeros Inputs.percent_columns))).
Proof.
  assert (H1 : percent_mode Inputs.percent_columns).
  { split; [reflexivity|]. split; intros H; discriminate H. }
  assert (H2 : points_at (VStr "a") (visibleSeries PercentInputs.zeros) ≠ []).
  { vm_compute. intros H; discriminate H. }
  assert (H3 : abs_sum (points_at (VStr "a")
                          (visibleSeries PercentInputs.zeros)) = Num.zero).
  { apply (bool_decide_unpack _). vm_compute. exact I. }
  split; [exact H1|]. split; [exact H2|]. split; [exact H3|].
  destruct (zero_sum_not_finite PercentInputs.zeros Inputs.percent_columns
              (VStr "a") H1) as (Hsum & Hzero & _).
  exact (proj2 (Hzero (Hsum H2 H3))).
Defined.

Lemma percent_token_unsigned_witness :
  is_pie TextInputs.pie
  ∧ map_get (VStr "a") (Series.sourceData TextInputs.negative_series)
    = Some TextInputs.negative
  ∧ Row.raw (Point.row TextInputs.negative) !! "@@yPercent" = None
  ∧ Point.yPercent TextInputs.negative = Some (Fin (Q2Qc (inject_Z (-30))))
  ∧ tokens TextInputs.pie TextInputs.negative_series (VStr "a") !! "@@yPercent"
    = Some (VStr (createNumberFormatter (Options.percentFormat TextInputs.pie)
                    (Fin (Qcabs (Q2Qc (inject_Z (-30))))))).
Proof.
  assert (H1 : is_pie TextInputs.pie) by reflexivity.
  assert (H2 : map_get (VStr "a") (Series.sourceData TextInputs.negative_series)
               = Some TextInputs.negative) by reflexivity.
  assert (H3 : Row.raw (Point.row TextInputs.negative) !! "@@yPercent" = None)
    by reflexivity.
  assert (H4 : Point.yPercent TextInputs.negative
               = Some (Fin (Q2Qc (inject_Z (-30))))) by reflexivity.
  split; [exact H1|]. split; [exact H2|]. split; [exact H3|].
  split; [exact H4|].
  exact (proj1 (percent_token_unsigned TextInputs.pie
                  TextInputs.negative_series (VStr "a") TextInputs.negative
                  (or_intror H1) H2 H3) _ H4).
Defined.

End Witnesses.

(** ** The further properties at work on the examples *)

Section MoreWitnesses.
Import Demo.

Lemma hidden_series_untouched_witness :
  StackInputs.aligned !! 1%nat = Some (series "H" false [("a", int 9)])
  ∧ Series.visible (series "H" false [("a", int 9)]) = false
  ∧ updateData StackInputs.aligned StackInputs.stacked_lines !! 1%nat
    = Some (series "H" false [("a", int 9)]).
Proof.
  assert (H1 : StackInputs.aligned !! 1%nat
               = Some (series "H" false [("a", int 9)])) by reflexivity.
  assert (H2 : Series.visible (series "H" false [("a", int 9)]) = false)
    by reflexivity.
  split; [exact H1|]. split; [exact H2|].
  exact (proj1 (hidden_series_untouched StackInputs.aligned
                  StackInputs.stacked_lines 1 _ H1 H2)).
Defined.

Lemma heatmap_untouched_witness :
  is_heatmap DispatchInputs.heatmap
  ∧ updateData PercentInputs.shares DispatchInputs.heatmap
    = PercentInputs.shares.
Proof.
  assert (H1 : is_heatmap DispatchInputs.heatmap) by reflexivity.
  split; [exact H1|].
  exact (heatmap_untouched PercentInputs.shares DispatchInputs.heatmap H1).
Defined.

Lemma hover_left_empty_witness :
  ∃ s,
    ¬ is_heatmap Inputs.percent_columns
    ∧ s ∈ visibleSeries
            (updateData PercentInputs.shares Inputs.percent_columns)
    ∧ Series.hover s = [].
Proof.
  assert (H1 : ¬ is_heatmap Inputs.percent_columns)
    by (intros H; discriminate H).
  eexists. split; [exact H1|].
  assert (H2 : ∀ s, visibleSeries
                      (updateData PercentInputs.shares Inputs.percent_columns)
                    !! 0%nat = Some s →
               s ∈ visibleSeries
                     (updateData PercentInputs.shares Inputs.percent_columns)).
  { intros s Hs. by eapply list_elem_of_lookup_2. }
  split.
  - apply H2. vm_compute. reflexivity.
  - refine (hover_left_empty PercentInputs.shares Inputs.percent_columns
              _ H1 (H2 _ _)).
    vm_compute. reflexivity.
Defined.

Lemma points_kept_without_percent_witness :
  ¬ percent_mode LabelInputs.columns
  ∧ Series.sourceData <$> updateData PercentInputs.shares LabelInputs.columns
    = Series.sourceData <$> PercentInputs.shares.
Proof.
  assert (H1 : ¬ percent_mode LabelInputs.columns)
    by (intros [H _]; discriminate H).
  split; [exact H1|].
  exact (points_kept_without_percent PercentInputs.shares
           LabelInputs.columns H1).
Defined.

Lemma arrays_kept_without_unification_witness :
  ¬ unification_runs DispatchInputs.stacked_columns
  ∧ Series.x <$> updateData StackInputs.ragged DispatchInputs.stacked_columns
    = Series.x <$> StackInputs.ragged.
Proof.
  assert (H1 : ¬ unification_runs DispatchInputs.stacked_columns)
    by (intros (_ & _ & H); discriminate H).
  split; [exact H1|].
  exact (proj1 (arrays_kept_without_unification StackInputs.ragged
                  DispatchInputs.stacked_columns H1)).
Defined.

Lemma percent_y_array_witness :
  ∃ s,
    percent_mode Inputs.percent_columns
    ∧ unifies Inputs.percent_columns = false
    ∧ s ∈ visibleSeries
            (updateData PercentInputs.shares Inputs.percent_columns)
    ∧ Series.y s = (λ p, of_opt (Point.yPercent p)) <$> items s.
Proof.
  assert (H1 : percent_mode Inputs.percent_columns).
  { split; [reflexivity|]. split; intros H; discriminate H. }
  assert (H2 : unifies Inputs.percent_columns = false) by reflexivity.
  assert (H3 : ∀ s, visibleSeries
                      (updateData PercentInputs.shares Inputs.percent_columns)
                    !! 1%nat = Some s →
               s ∈ visibleSeries
                     (updateData PercentInputs.shares Inputs.percent_columns)).
  { intros s Hs. by eapply list_elem_of_lookup_2. }
  eexists. split; [exact H1|]. split; [exact H2|]. split.
  - apply H3. vm_compute. reflexivity.
  - refine (proj1 (percent_y_array PercentInputs.shares
                     Inputs.percent_columns _ H1 H2 (H3 _ _))).
    vm_compute. reflexivity.
Defined.

Lemma share_bounds_witness :
  percent_mode Inputs.percent_columns
  ∧ Forall (λ p, Num.is_finite (Point.y p) = true)
           (points_at (VStr "a") (visibleSeries PercentInputs.opposite))
  ∧ abs_sum (points_at (VStr "a") (visibleSeries PercentInputs.opposite))
    ≠ Num.zero
  ∧ Forall (λ p, ∃ r, Point.yPercent p = Some (Fin r)
                      ∧ (Qcabs r ≤ q100)%Qc)
      (points_at (VStr "a")
         (visibleSeries
            (updateData PercentInputs.opposite Inputs.percent_columns))).
Proof.
  assert (H1 : percent_mode Inputs.percent_columns).
  { split; [reflexivity|]. split; intros H; discriminate H. }
  assert (H2 : Forall (λ p, Num.is_finite (Point.y p) = true)
                 (points_at (VStr "a") (visibleSeries PercentInputs.opposite))).
  { vm_compute. repeat constructor. }
  assert (H3 : abs_sum (points_at (VStr "a")
                          (visibleSeries PercentInputs.opposite)) ≠ Num.zero).
  { apply (bool_decide_unpack _). vm_compute. exact I. }
  split; [exact H1|]. split; [exact H2|]. split; [exact H3|].
  exact (share_bounds PercentInputs.opposite Inputs.percent_columns
           (VStr "a") H1 H2 H3).
Defined.



Lemma unified_arrays_keep_points_witness :
  ∃ s',
    StackInputs.ragged !! 1%nat = Some (series "B" true [("a", int 3)])
    ∧ updateUnifiedXAxisValues StackInputs.ragged StackInputs.sorted_lines
        None !! 1%nat = Some s'
    ∧ keyed_by_x (series "B" true [("a", int 3)])
    ∧ NoDup (keys (series "B" true [("a", int 3)]))
    ∧ point "a" (int 3) ∈ Series.sourceData (series "B" true [("a", int 3)])
    ∧ ∃ i, Series.x s' !! i = Some (VStr "a")
        ∧ Series.y s' !! i = Some (VNum (int 3)).
Proof.
  assert (H1 : StackInputs.ragged !! 1%nat
               = Some (series "B" true [("a", int 3)])) by reflexivity.
  assert (H3 : keyed_by_x (series "B" true [("a", int 3)]))
    by (repeat constructor).
  assert (H4 : NoDup (keys (series "B" true [("a", int 3)])))
    by apply NoDup_singleton.
  assert (H5 : point "a" (int 3)
               ∈ Series.sourceData (series "B" true [("a", int 3)]))
    by apply list_elem_of_here.
  eexists. split; [exact H1|]. split; [vm_compute; reflexivity|].
  split; [exact H3|]. split; [exact H4|]. split; [exact H5|].
  refine (match unified_arrays_keep_points StackInputs.ragged
                  StackInputs.sorted_lines None 1 _ _ (VStr "a")
                  (point "a" (int 3)).2 H1 _ H3 H4 H5 with
          | ex_intro _ i (conj Hx (conj Hy _)) =>
              ex_intro _ i (conj Hx Hy)
          end).
  vm_compute. reflexivity.
Defined.

Lemma default_label_of_point_witness :
  Options.textFormat LabelInputs.columns = ""
  ∧ ¬ is_pie LabelInputs.columns
  ∧ yValueIsAny LabelInputs.columns LabelInputs.full_series = false
  ∧ map_get (VStr "a") (Series.sourceData LabelInputs.full_series)
    = Some LabelInputs.full
  ∧ raw_apart LabelInputs.full
  ∧ createTextFormatter LabelInputs.columns
      (tokens LabelInputs.columns LabelInputs.full_series (VStr "a"))
    = VStr (default_label LabelInputs.columns LabelInputs.full).
Proof.
  assert (H1 : Options.textFormat LabelInputs.columns = "") by reflexivity.
  assert (H2 : ¬ is_pie LabelInputs.columns) by (intros H; discriminate H).
  assert (H3 : yValueIsAny LabelInputs.columns LabelInputs.full_series = false)
    by reflexivity.
  assert (H4 : map_get (VStr "a") (Series.sourceData LabelInputs.full_series)
               = Some LabelInputs.full) by reflexivity.
  assert (H5 : raw_apart LabelInputs.full) by (repeat constructor).
  split; [exact H1|]. split; [exact H2|]. split; [exact H3|].
  split; [exact H4|]. split; [exact H5|].
  exact (default_label_of_point LabelInputs.columns LabelInputs.full_series
           (VStr "a") LabelInputs.full H1 H2 H3 H4 H5).
Defined.

Lemma pie_label_of_point_witness :
  Options.textFormat TextInputs.pie = ""
  ∧ is_pie TextInputs.pie
  ∧ yValueIsAny TextInputs.pie TextInputs.negative_series = false
  ∧ map_get (VStr "a") (Series.sourceData TextInputs.negative_series)
    = Some TextInputs.negative
  ∧ raw_apart TextInputs.negative
  ∧ createTextFormatter TextInputs.pie
      (tokens TextInputs.pie TextInputs.negative_series (VStr "a"))
    = VStr (pie_label TextInputs.pie TextInputs.negative).
Proof.
  assert (H1 : Options.textFormat TextInputs.pie = "") by reflexivity.
  assert (H2 : is_pie TextInputs.pie) by reflexivity.
  assert (H3 : yValueIsAny TextInputs.pie TextInputs.negative_series = false)
    by reflexivity.
  assert (H4 : map_get (VStr "a") (Series.sourceData TextInputs.negative_series)
               = Some TextInputs.negative) by reflexivity.
  assert (H5 : raw_apart TextInputs.negative) by (repeat constructor).
  split; [exact H1|]. split; [exact H2|]. split; [exact H3|].
  split; [exact H4|]. split; [exact H5|].
  exact (pie_label_of_point TextInputs.pie TextInputs.negative_series
           (VStr "a") TextInputs.negative H1 H2 H3 H4 H5).
Defined.

Lemma label_without_point_witness :
  map_get (VStr "b") (Series.sourceData LabelInputs.full_series) = None
  ∧ tokens LabelInputs.columns LabelInputs.full_series (VStr "b")
    = {[ "@@name" := VStr (Series.name LabelInputs.full_series) ]}.
Proof.
  assert (H1 : map_get (VStr "b") (Series.sourceData LabelInputs.full_series)
               = None) by reflexivity.
  split; [exact H1|].
  exact (proj1 (label_without_point LabelInputs.columns
                  LabelInputs.full_series (VStr "b") H1)).
Defined.

Lemma raw_fields_in_bag_witness :
  map_get (VStr "a") (Series.sourceData LabelInputs.full_series)
  = Some LabelInputs.full
  ∧ Row.raw (Point.row LabelInputs.full) !! "city" = Some (VStr "Oslo")
  ∧ tokens LabelInputs.columns LabelInputs.full_series (VStr "a") !! "city"
    = Some (VStr "Oslo").
Proof.
  assert (H1 : map_get (VStr "a") (Series.sourceData LabelInputs.full_series)
               = Some LabelInputs.full) by reflexivity.
  assert (H2 : Row.raw (Point.row LabelInputs.full) !! "city"
               = Some (VStr "Oslo")) by reflexivity.
  split; [exact H1|]. split; [exact H2|].
  exact (raw_fields_in_bag LabelInputs.columns LabelInputs.full_series
           (VStr "a") LabelInputs.full "city" (VStr "Oslo") H1 H2).
Defined.


Lemma pie_ignores_flags_witness :
  is_pie TextInputs.pie
  ∧ updateData PieInputs.two_slices (with_flags true true true TextInputs.pie)
    = updateData PieInputs.two_slices TextInputs.pie.
Proof.
  assert (H1 : is_pie TextInputs.pie) by reflexivity.
  split; [exact H1|].
  exact (pie_ignores_flags PieInputs.two_slices TextInputs.pie
           true true true H1).
Defined.

End MoreWitnesses.
